(** * kitchinv: the streaming photo-analysis pipeline

    A shallow embedding of
    - [internal/vision/parse.go]          (ParseLine, ParseResponse),
    - the streaming adapters of the Ollama and Claude backends,
    - [internal/service/area_service.go]  (UploadPhotoStream and its worker),
    - [handleStreamPhoto] of the web layer,
    and the properties the specification states about them.

    Go strings are UTF-8; we model a string as the list of its code points
    ([rune]).  Every operation the code applies to these strings
    ([strings.Split] on an ASCII separator, [strings.Contains] of an ASCII
    character, [strings.TrimSpace], ranging over the runes of a string) acts on
    that sequence. *)

From Stdlib Require Import List NArith Arith Bool Lia String.
Import ListNotations.

(* ================================================================= *)
(** ** Runes and the [strings] functions used by the parser *)

Definition rune := N.
Definition text := list rune.

Definition newline : rune := 10%N.
Definition pipe : rune := 124%N.

(** [unicode.IsSpace]: the Latin-1 cases, then the [White_Space] table. *)
Definition IsSpace (r : rune) : bool :=
  if (r <=? 255)%N then
    match r with
    | 9%N | 10%N | 11%N | 12%N | 13%N | 32%N | 133%N | 160%N => true
    | _ => false
    end
  else
    (r =? 5760)%N || ((8192 <=? r)%N && (r <=? 8202)%N)
    || (r =? 8232)%N || (r =? 8233)%N || (r =? 8239)%N
    || (r =? 8287)%N || (r =? 12288)%N.

(** [strings.TrimLeft(s, unicode.IsSpace)] *)
Fixpoint TrimLeft (s : text) : text :=
  match s with
  | [] => []
  | c :: r => if IsSpace c then TrimLeft r else s
  end.

(** [strings.TrimRight(s, unicode.IsSpace)]: the longest prefix that ends in a
    non-space rune. *)
Fixpoint TrimRight (s : text) : text :=
  match s with
  | [] => []
  | c :: r =>
      match TrimRight r with
      | [] => if IsSpace c then [] else [c]
      | t => c :: t
      end
  end.

(** [strings.TrimSpace] *)
Definition TrimSpace (s : text) : text := TrimRight (TrimLeft s).

(** [strings.Contains(s, string(c))] *)
Definition Contains (s : text) (c : rune) : bool := existsb (N.eqb c) s.

(** [strings.Split(s, string(c))] for a one-rune separator: the fields
    between the separators; [Split "" c = [""]]. *)
Fixpoint Split (s : text) (c : rune) : list text :=
  match s with
  | [] => [[]]
  | x :: r =>
      if (x =? c)%N then [] :: Split r c
      else match Split r c with
           | f :: fs => (x :: f) :: fs
           | [] => [[x]]
           end
  end.

(** Literal strings of the examples: the runes of an ASCII string. *)
Definition runes (s : string) : text :=
  map (fun a => N.of_nat (Ascii.nat_of_ascii a)) (list_ascii_of_string s).

(* ================================================================= *)
(** ** [internal/vision]: DetectedItem, StreamEvent, ParseLine, ParseResponse *)

Record DetectedItem := {
  Name : text;
  Quantity : text;
  Notes : text
}.

(** The Go [error] values are kept as their messages. *)
Definition GoError := string.

(** [vision.StreamEvent]: exactly one of [Item] and [Err] is set. *)
Inductive StreamEvent :=
| EvItem (it : DetectedItem)
| EvErr (e : GoError).

Definition is_empty (s : text) : bool :=
  match s with [] => true | _ => false end.

(** [vision.ParseLine]; [None] is the nil pointer. *)
Definition ParseLine (line0 : text) : option DetectedItem :=
  let line := TrimSpace line0 in
  if is_empty line then None
  else if negb (Contains line pipe) then None
  else
    let parts := Split line pipe in
    let item := {|
      Name := TrimSpace (nth 0 parts []);
      Quantity := if 2 <=? List.length parts then TrimSpace (nth 1 parts []) else [];
      Notes := if 3 <=? List.length parts then TrimSpace (nth 2 parts []) else []
    |} in
    if is_empty (Name item) then None else Some item.

(** The [for _, line := range lines] loop of [ParseResponse], appending to
    [items]. *)
Fixpoint parse_lines (items : list DetectedItem) (lines : list text)
  : list DetectedItem :=
  match lines with
  | [] => items
  | line :: rest =>
      let items' := match ParseLine line with
                     | Some item => items ++ [item]
                     | None => items
                     end in
      parse_lines items' rest
  end.

(** [vision.ParseResponse] *)
Definition ParseResponse (raw : text) : list DetectedItem :=
  parse_lines [] (Split raw newline).

Definition option_list {A} (o : option A) : list A :=
  match o with Some a => [a] | None => [] end.

(** The [i]-th ['|']-delimited field of a line, trimmed (empty when absent). *)
Definition field (i : nat) (line : text) : text :=
  TrimSpace (nth i (Split line pipe) []).

(** Number of ['|'] separators of a line. *)
Definition count_pipes (line : text) : nat :=
  List.length (filter (N.eqb pipe) line).

(* ================================================================= *)
(** ** The streaming adapters *)

(** [strings.HasPrefix] *)
Fixpoint HasPrefix (s prefix : text) : bool :=
  match prefix, s with
  | [], _ => true
  | p :: ps, c :: cs => (p =? c)%N && HasPrefix cs ps
  | _ :: _, [] => false
  end.

Fixpoint text_eqb (a b : text) : bool :=
  match a, b with
  | [], [] => true
  | x :: xs, y :: ys => (x =? y)%N && text_eqb xs ys
  | _, _ => false
  end.

(** An ASCII literal in which ['] stands for the double quote (JSON texts). *)
Definition json (s : string) : text :=
  map (fun r => if (r =? 39)%N then 34%N else r) (runes s).

(** One run of an adapter's goroutine.  The response body, as
    [bufio.Scanner] splits it: its lines, and whether the scan ends in a read
    error ([scanner.Err() != nil]: connection drop, unexpected EOF, line too
    long).  [cancel_at = Some k]: [ctx.Err()] is non-nil from the check made
    before line [k] on (and at every later check); [None]: never cancelled. *)
Record AdapterRun := {
  body_lines : list text;
  read_err : bool;
  cancel_at : option nat
}.

(** [ctx.Err() != nil] at the check made after [i] lines were scanned. *)
Definition ctx_err_at (cancel : option nat) (i : nat) : bool :=
  match cancel with Some k => k <=? i | None => false end.

(** The loop shared by both adapters:
    [for _, c := range text { if c == '\n' { line := TrimSpace(lineBuf);
    lineBuf.Reset(); if item := ParseLine(line); item != nil { ch <- item } }
    else { lineBuf.WriteRune(c) } }].
    Returns the new [lineBuf] and the events sent. *)
Fixpoint accumulate (buf : text) (resp : text) : text * list StreamEvent :=
  match resp with
  | [] => (buf, [])
  | c :: r =>
      if (c =? newline)%N then
        let line := TrimSpace buf in
        let evs := option_list (option_map EvItem (ParseLine line)) in
        let (buf', evs') := accumulate [] r in
        (buf', evs ++ evs')
      else accumulate (buf ++ [c]) r
  end.

(** The events of a final flush of [lineBuf] through the parser. *)
Definition flush_events (buf : text) : list StreamEvent :=
  option_list (option_map EvItem (ParseLine (TrimSpace buf))).

(** *** Ollama ([internal/vision/ollama], [OllamaAnalyzer.AnalyzeStream]) *)

(** A chunk [{"response": ..., "done": ...}] as [json.Unmarshal] decodes it. *)
Record OllamaChunk := {
  chunk_response : text;
  chunk_done : bool
}.

Definition err_parse_chunk : GoError := "parse chunk"%string.
Definition err_read_stream : GoError := "read stream"%string.

(** The goroutine's [for scanner.Scan()] loop, from line [i] on, with
    [lineBuf = buf]; [unmarshal] is [json.Unmarshal] into the chunk struct
    ([None]: it returned an error). *)
Fixpoint ollama_scan (unmarshal : text -> option OllamaChunk)
    (cancel : option nat) (rerr : bool) (i : nat) (buf : text)
    (lines : list text) : list StreamEvent :=
  match lines with
  | [] =>
      (* if err := scanner.Err(); err != nil && ctx.Err() == nil *)
      if rerr && negb (ctx_err_at cancel i) then [EvErr err_read_stream] else []
  | l :: rest =>
      if ctx_err_at cancel i then []
      else match unmarshal l with
           | None => [EvErr err_parse_chunk]
           | Some ch =>
               let (buf', evs) := accumulate buf (chunk_response ch) in
               if chunk_done ch then evs ++ flush_events buf'
               else evs ++ ollama_scan unmarshal cancel rerr (S i) buf' rest
           end
  end.

(** Everything the goroutine sends on [ch] before [close(ch)]. *)
Definition ollama_stream (unmarshal : text -> option OllamaChunk)
    (run : AdapterRun) : list StreamEvent :=
  ollama_scan unmarshal (cancel_at run) (read_err run) 0 [] (body_lines run).

(** *** Claude ([internal/vision/claude], [ClaudeAnalyzer.AnalyzeStream]) *)

(** An SSE event [{"type": ..., "delta": {"type": ..., "text": ...}}] as
    [json.Unmarshal] decodes it. *)
Record ClaudeEvent := {
  ev_type : text;
  delta_type : text;
  delta_text : text
}.

Definition err_read_claude_stream : GoError := "read claude stream"%string.

(** How the [for scanner.Scan()] loop ends: a [return] (context cancelled),
    or leaving the loop (end of the body, or [break] at [[DONE]]) after [i]
    lines with [lineBuf = buf]. *)
Inductive ClaudeExit :=
| CReturned
| CExited (i : nat) (buf : text).

Fixpoint claude_scan (unmarshal : text -> option ClaudeEvent)
    (cancel : option nat) (i : nat) (buf : text) (lines : list text)
  : list StreamEvent * ClaudeExit :=
  match lines with
  | [] => ([], CExited i buf)
  | l :: rest =>
      if ctx_err_at cancel i then ([], CReturned)
      else if negb (HasPrefix l (runes "data: ")) then
        claude_scan unmarshal cancel (S i) buf rest
      else
        let data := skipn 6 l in
        if text_eqb data (runes "[DONE]") then ([], CExited (S i) buf)
        else match unmarshal data with
             | None => claude_scan unmarshal cancel (S i) buf rest
             | Some ev =>
                 if negb (text_eqb (ev_type ev) (runes "content_block_delta"))
                    || negb (text_eqb (delta_type ev) (runes "text_delta"))
                 then claude_scan unmarshal cancel (S i) buf rest
                 else
                   let (buf', evs) := accumulate buf (delta_text ev) in
                   let (evs', ex) := claude_scan unmarshal cancel (S i) buf' rest in
                   (evs ++ evs', ex)
             end
  end.

(** Everything the goroutine sends on [ch] before [close(ch)]: the loop, the
    flush of a non-blank trailing line, the read error. *)
Definition claude_stream (unmarshal : text -> option ClaudeEvent)
    (run : AdapterRun) : list StreamEvent :=
  let (evs, ex) := claude_scan unmarshal (cancel_at run) 0 [] (body_lines run) in
  evs ++
  match ex with
  | CReturned => []
  | CExited i buf =>
      let tail := TrimSpace buf in
      (if negb (is_empty tail)
       then option_list (option_map EvItem (ParseLine tail)) else [])
      ++ (if read_err run && negb (ctx_err_at (cancel_at run) i)
          then [EvErr err_read_claude_stream] else [])
  end.

(** *** Properties of event sequences *)

(** At most one error event, and only as the last event. *)
Fixpoint errors_last (evs : list StreamEvent) : bool :=
  match evs with
  | [] => true
  | EvErr _ :: r => match r with [] => true | _ => false end
  | EvItem _ :: r => errors_last r
  end.

Definition is_item (ev : StreamEvent) : bool :=
  match ev with EvItem _ => true | EvErr _ => false end.

(** The line buffer and the events after feeding several texts to the loop,
    from an empty buffer. *)
Fixpoint accumulate_all (buf : text) (rs : list text) : text * list StreamEvent :=
  match rs with
  | [] => (buf, [])
  | r :: rs' =>
      let (b1, e1) := accumulate buf r in
      let (b2, e2) := accumulate_all b1 rs' in
      (b2, e1 ++ e2)
  end.

(** The texts of the [text_delta] events among some SSE lines. *)
Fixpoint claude_deltas (unmarshal : text -> option ClaudeEvent) (lines : list text)
  : list text :=
  match lines with
  | [] => []
  | l :: rest =>
      let d := if negb (HasPrefix l (runes "data: ")) then []
               else match unmarshal (skipn 6 l) with
                    | Some ev =>
                        if negb (text_eqb (ev_type ev) (runes "content_block_delta"))
                           || negb (text_eqb (delta_type ev) (runes "text_delta"))
                        then [] else [delta_text ev]
                    | None => []
                    end in
      d ++ claude_deltas unmarshal rest
  end.

(** A transport failure of the Ollama stream before its done marker: a
    chunk that does not decode, or the end of the scan with a read error. *)
Fixpoint ollama_fails (unmarshal : text -> option OllamaChunk)
    (lines : list text) (rerr : bool) : bool :=
  match lines with
  | [] => rerr
  | l :: rest =>
      match unmarshal l with
      | None => true
      | Some ch => if chunk_done ch then false else ollama_fails unmarshal rest rerr
      end
  end.

(** The channel carries items and then exactly one error event. *)
Definition ends_with_one_err (evs : list StreamEvent) : Prop :=
  exists items e, evs = items ++ [EvErr e] /\ forallb is_item items = true.

(** *** Concrete backends for the examples

    [json.Unmarshal] on the few response lines used below, as a table. *)
Fixpoint lookup_json {A} (tbl : list (text * A)) (d : text) : option A :=
  match tbl with
  | [] => None
  | (k, v) :: r => if text_eqb k d then Some v else lookup_json r d
  end.

Definition demo_ollama_unmarshal : text -> option OllamaChunk :=
  lookup_json
    [ (json "{'response':'Milk | 2 l','done':false}",
       {| chunk_response := runes "Milk | 2 l"; chunk_done := false |});
      (json "{'response':'\n','done':false}",
       {| chunk_response := [newline]; chunk_done := false |});
      (json "{'response':'Butter | 1','done':false}",
       {| chunk_response := runes "Butter | 1"; chunk_done := false |});
      (json "{'response':'','done':true}",
       {| chunk_response := []; chunk_done := true |}) ].

Definition demo_claude_unmarshal : text -> option ClaudeEvent :=
  lookup_json
    [ (json "{'type':'content_block_delta','delta':{'type':'text_delta','text':'Eggs | 12'}}",
       {| ev_type := runes "content_block_delta"; delta_type := runes "text_delta";
          delta_text := runes "Eggs | 12" |});
      (json "{'type':'content_block_delta','delta':{'type':'text_delta','text':'Milk | 1 | open'}}",
       {| ev_type := runes "content_block_delta"; delta_type := runes "text_delta";
          delta_text := runes "Milk | 1 | open" |});
      (json "{'type':'content_block_delta','delta':{'type':'text_delta','text':'\n'}}",
       {| ev_type := runes "content_block_delta"; delta_type := runes "text_delta";
          delta_text := [newline] |}) ].

(** The SSE line [data: [DONE]]. *)
Definition is_done_line (l : text) : bool :=
  HasPrefix l (runes "data: ") && text_eqb (skipn 6 l) (runes "[DONE]").

(** Response lines of the examples. *)
Definition ollama_line (s : string) : text := json s.
Definition sse_data (s : string) : text := runes "data: " ++ json s.

(** A Claude stream whose first data line is not JSON. *)
Definition claude_malformed_run : AdapterRun := {|
  body_lines := [ sse_data "{oops";
                  sse_data "{'type':'content_block_delta','delta':{'type':'text_delta','text':'Milk | 1 | open'}}" ];
  read_err := false;
  cancel_at := None |}.

(** An Ollama stream: two lines, the second one ended by the done marker. *)
Definition ollama_chunks_done : list text :=
  [ ollama_line "{'response':'Milk | 2 l','done':false}";
    ollama_line "{'response':'\n','done':false}";
    ollama_line "{'response':'Butter | 1','done':false}" ].

Definition ollama_done_run : AdapterRun := {|
  body_lines := ollama_chunks_done ++ [ollama_line "{'response':'','done':true}"];
  read_err := false;
  cancel_at := None |}.

(** An Ollama stream cut by a chunk that is not JSON. *)
Definition ollama_broken_run : AdapterRun := {|
  body_lines := [ ollama_line "{'response':'Milk | 2 l','done':false}";
                  ollama_line "{'response':'\n','done':false}";
                  ollama_line "{'respo" ];
  read_err := false;
  cancel_at := None |}.

(** A Claude stream: an SSE event line, text deltas, a blank line, [DONE]. *)
Definition claude_lines_before_done : list text :=
  [ runes "event: content_block_delta";
    sse_data "{'type':'content_block_delta','delta':{'type':'text_delta','text':'Eggs | 12'}}";
    sse_data "{'type':'content_block_delta','delta':{'type':'text_delta','text':'\n'}}";
    [];
    sse_data "{'type':'content_block_delta','delta':{'type':'text_delta','text':'Milk | 1 | open'}}" ].

Definition claude_done_run : AdapterRun := {|
  body_lines := claude_lines_before_done ++ [runes "data: [DONE]"];
  read_err := false;
  cancel_at := None |}.

(** A Claude stream whose connection drops in the middle of a line. *)
Definition claude_read_error_run : AdapterRun := {|
  body_lines := [ sse_data "{'type':'content_block_delta','delta':{'type':'text_delta','text':'Eggs | 12'}}";
                  sse_data "{'type':'content_block_delta','delta':{'type':'text_delta','text':'\n'}}";
                  sse_data "{'type':'content_block_delta','delta':{'type':'text_delta','text':'Milk | 1 | open'}}" ];
  read_err := true;
  cancel_at := None |}.

(* ================================================================= *)
(** ** [internal/service]: UploadPhotoStream *)

(** The rows of the [photos] and [items] tables ([internal/domain]); storage
    keys are the names the blob store hands out. *)
Record Photo := {
  photo_ID : nat;
  photo_AreaID : nat;
  photo_StorageKey : nat
}.

Record Item := {
  item_ID : nat;
  item_AreaID : nat;
  item_PhotoID : option nat;
  item_Name : text;
  item_Quantity : text;
  item_Notes : text
}.

(** The persistent state: saved blobs, the two tables, and the counters that
    make new keys and row ids fresh (AUTOINCREMENT, unique file names). *)
Record Store := {
  blobs : list nat;
  photos : list Photo;
  items : list Item;
  next_key : nat;
  next_id : nat
}.

(** The answers of the collaborators during one call. *)
Inductive LookupResult := LookupErr | LookupNil | LookupFound.

(** [PhotoStore.Create] and [ItemStore.Create] run an INSERT and then read
    the row back ([LastInsertId], [GetByID]); they can fail before the INSERT
    or after it committed. *)
Inductive CreateOutcome := CreateOk | CreateFailsBeforeInsert | CreateFailsAfterInsert.

Record Env := {
  env_area : LookupResult;              (* areaStore.GetByID *)
  env_streaming : bool;                 (* visionAPI.(vision.StreamAnalyzer) *)
  env_save_ok : bool;                   (* photoStg.Save *)
  env_photo_create : CreateOutcome;     (* photoStore.Create *)
  env_analyze_ok : bool;                (* sa.AnalyzeStream returns a channel *)
  env_photo_delete_ok : bool;           (* photoStore.Delete *)
  env_blob_delete_ok : bool;            (* photoStg.Delete *)
  env_delete_items_ok : bool;           (* itemStore.DeleteByAreaID *)
  env_item_create : nat -> CreateOutcome (* the n-th itemStore.Create of the worker *)
}.

(** The calls made on the collaborators, in order. *)
Inductive Op :=
| OGetArea | OSave | OPhotoCreate | OAnalyzeStream (ok : bool)
| OPhotoDelete | OBlobDelete | ODeleteItems | OItemCreate.

Definition is_delete_items (o : Op) : bool :=
  match o with ODeleteItems => true | _ => false end.

Definition is_stream_accepted (o : Op) : bool :=
  match o with OAnalyzeStream true => true | _ => false end.

(** [photoStg.Save]: a fresh key. *)
Definition blob_save (st : Store) : nat * Store :=
  let key := next_key st in
  (key, {| blobs := blobs st ++ [key]; photos := photos st; items := items st;
           next_key := S key; next_id := next_id st |}).

(** [photoStg.Delete] *)
Definition blob_delete (ok : bool) (st : Store) (key : nat) : bool * Store :=
  if ok then
    (true, {| blobs := remove Nat.eq_dec key (blobs st); photos := photos st;
              items := items st; next_key := next_key st; next_id := next_id st |})
  else (false, st).

Definition photo_insert (st : Store) (areaID key : nat) : Photo * Store :=
  let p := {| photo_ID := next_id st; photo_AreaID := areaID; photo_StorageKey := key |} in
  (p, {| blobs := blobs st; photos := photos st ++ [p]; items := items st;
         next_key := next_key st; next_id := S (next_id st) |}).

(** [photoStore.Create] *)
Definition photo_create (oc : CreateOutcome) (st : Store) (areaID key : nat)
  : option Photo * Store :=
  match oc with
  | CreateOk => let (p, st') := photo_insert st areaID key in (Some p, st')
  | CreateFailsBeforeInsert => (None, st)
  | CreateFailsAfterInsert => (None, snd (photo_insert st areaID key))
  end.

(** [photoStore.Delete]: [DELETE FROM photos WHERE id = ?], an error when no
    row is affected. *)
Definition photo_delete (ok : bool) (st : Store) (id : nat) : bool * Store :=
  if ok then
    (existsb (fun p => photo_ID p =? id) (photos st),
     {| blobs := blobs st; photos := filter (fun p => negb (photo_ID p =? id)) (photos st);
        items := items st; next_key := next_key st; next_id := next_id st |})
  else (false, st).

(** [itemStore.DeleteByAreaID] *)
Definition items_delete_by_area (ok : bool) (st : Store) (areaID : nat) : bool * Store :=
  if ok then
    (true, {| blobs := blobs st; photos := photos st;
              items := filter (fun it => negb (item_AreaID it =? areaID)) (items st);
              next_key := next_key st; next_id := next_id st |})
  else (false, st).

Definition item_insert (st : Store) (areaID : nat) (photoID : option nat)
    (d : DetectedItem) : Item * Store :=
  let it := {| item_ID := next_id st; item_AreaID := areaID; item_PhotoID := photoID;
               item_Name := Name d; item_Quantity := Quantity d;
               item_Notes := Notes d |} in
  (it, {| blobs := blobs st; photos := photos st; items := items st ++ [it];
          next_key := next_key st; next_id := S (next_id st) |}).

(** [itemStore.Create(ctx, areaID, photoID, name, quantity, notes)] *)
Definition item_create (oc : CreateOutcome) (st : Store) (areaID : nat)
    (photoID : option nat) (d : DetectedItem) : option Item * Store :=
  match oc with
  | CreateOk => let (it, st') := item_insert st areaID photoID d in (Some it, st')
  | CreateFailsBeforeInsert => (None, st)
  | CreateFailsAfterInsert => (None, snd (item_insert st areaID photoID d))
  end.

(** What [UploadPhotoStream] returns besides the channel. *)
Inductive BeginResult :=
| BeginErr (photo : option Photo) (e : GoError)
| BeginOk (photo : Photo).

Definition is_begin_err (r : BeginResult) : bool :=
  match r with BeginErr _ _ => true | BeginOk _ => false end.

(** [AreaService.UploadPhotoStream] up to the start of the worker goroutine:
    the result, the store, the calls made. *)
Definition UploadPhotoStream (env : Env) (st : Store) (areaID : nat)
  : BeginResult * Store * list Op :=
  match env_area env with
  | LookupErr => (BeginErr None "failed to get area"%string, st, [OGetArea])
  | LookupNil => (BeginErr None "area not found"%string, st, [OGetArea])
  | LookupFound =>
    if negb (env_streaming env) then
      (BeginErr None "vision adapter does not support streaming"%string, st, [OGetArea])
    else if negb (env_save_ok env) then
      (BeginErr None "failed to save photo"%string, st, [OGetArea; OSave])
    else
      let (storageKey, st1) := blob_save st in
      match photo_create (env_photo_create env) st1 areaID storageKey with
      | (None, st2) =>
          (* _ = s.photoStg.Delete(ctx, storageKey) *)
          let st3 := snd (blob_delete (env_blob_delete_ok env) st2 storageKey) in
          (BeginErr None "failed to create photo record"%string, st3,
           [OGetArea; OSave; OPhotoCreate; OBlobDelete])
      | (Some photo, st2) =>
          if negb (env_analyze_ok env) then
            (* roll back the new photo record and file; errors are logged *)
            let st3 := snd (photo_delete (env_photo_delete_ok env) st2 (photo_ID photo)) in
            let st4 := snd (blob_delete (env_blob_delete_ok env) st3 storageKey) in
            (BeginErr None "failed to start vision stream"%string, st4,
             [OGetArea; OSave; OPhotoCreate; OAnalyzeStream false; OPhotoDelete; OBlobDelete])
          else
            let (ok, st3) := items_delete_by_area (env_delete_items_ok env) st2 areaID in
            if negb ok then
              (BeginErr (Some photo) "failed to delete old items"%string, st3,
               [OGetArea; OSave; OPhotoCreate; OAnalyzeStream true; ODeleteItems])
            else
              (BeginOk photo, st3,
               [OGetArea; OSave; OPhotoCreate; OAnalyzeStream true; ODeleteItems])
      end
  end.

(** The worker goroutine: [for ev := range rawCh], from the [n]-th item
    create on; returns the store, what it sends on [out], the calls made. *)
Fixpoint worker (env : Env) (areaID : nat) (photo : Photo) (n : nat)
    (evs : list StreamEvent) (st : Store) : Store * list StreamEvent * list Op :=
  match evs with
  | [] => (st, [], [])
  | EvErr e :: _ => (st, [EvErr e], [])
  | EvItem d :: rest =>
      match item_create (env_item_create env n) st areaID (Some (photo_ID photo)) d with
      | (None, st1) =>
          (* logged; continue *)
          let '(st2, out, ops) := worker env areaID photo (S n) rest st1 in
          (st2, out, OItemCreate :: ops)
      | (Some item, st1) =>
          let '(st2, out, ops) := worker env areaID photo (S n) rest st1 in
          (st2, EvItem {| Name := item_Name item; Quantity := item_Quantity item;
                          Notes := item_Notes item |} :: out,
           OItemCreate :: ops)
      end
  end.

(** One upload: [UploadPhotoStream], then, if it returned a channel, its
    worker over the adapter's events [evs]. *)
Definition upload_run (env : Env) (st : Store) (areaID : nat)
    (evs : list StreamEvent) : option (list StreamEvent) * Store * list Op :=
  match UploadPhotoStream env st areaID with
  | (BeginOk photo, st1, ops1) =>
      let '(st2, out, ops2) := worker env areaID photo 0 evs st1 in
      (Some out, st2, ops1 ++ ops2)
  | (BeginErr _ _, st1, ops1) => (None, st1, ops1)
  end.

(** Well-formed stores: the counters are above every key and id in use. *)
Definition store_wf (st : Store) : bool :=
  forallb (fun k => k <? next_key st) (blobs st) &&
  forallb (fun p => photo_ID p <? next_id st) (photos st) &&
  forallb (fun it => item_ID it <? next_id st) (items st).

Definition is_fails_after (oc : CreateOutcome) : bool :=
  match oc with CreateFailsAfterInsert => true | _ => false end.

Definition is_create_ok (oc : CreateOutcome) : bool :=
  match oc with CreateOk => true | _ => false end.

(** The environments in which [UploadPhotoStream] fails before the stream
    is accepted. *)
Definition setup_fails (env : Env) : bool :=
  match env_area env with
  | LookupFound =>
      negb (env_streaming env) || negb (env_save_ok env) ||
      negb (is_create_ok (env_photo_create env)) || negb (env_analyze_ok env)
  | _ => true
  end.

(** The compensating deletes succeed, and a failed photo create left no row. *)
Definition rollback_clean (env : Env) : bool :=
  env_photo_delete_ok env && env_blob_delete_ok env &&
  negb (is_fails_after (env_photo_create env)).

(** The adapter's item events up to its first error, and that error. *)
Fixpoint items_before_err (evs : list StreamEvent) : list DetectedItem :=
  match evs with
  | [] => []
  | EvErr _ :: _ => []
  | EvItem d :: rest => d :: items_before_err rest
  end.

Fixpoint first_err (evs : list StreamEvent) : list StreamEvent :=
  match evs with
  | [] => []
  | EvErr e :: _ => [EvErr e]
  | EvItem _ :: rest => first_err rest
  end.

(** The detections, from the [n]-th create on, whose create succeeded, and
    those whose INSERT ran. *)
Fixpoint persisted (oc : nat -> CreateOutcome) (n : nat) (ds : list DetectedItem)
  : list DetectedItem :=
  match ds with
  | [] => []
  | d :: rest =>
      if is_create_ok (oc n) then d :: persisted oc (S n) rest else persisted oc (S n) rest
  end.

Fixpoint inserted (oc : nat -> CreateOutcome) (n : nat) (ds : list DetectedItem)
  : list DetectedItem :=
  match ds with
  | [] => []
  | d :: rest =>
      match oc n with
      | CreateFailsBeforeInsert => inserted oc (S n) rest
      | _ => d :: inserted oc (S n) rest
      end
  end.

Definition row_fields (it : Item) : nat * option nat * text * text * text :=
  (item_AreaID it, item_PhotoID it, item_Name it, item_Quantity it, item_Notes it).

(** Scenario A: area 1 has photo [P] (id 0, blob 0) and items Milk and Butter. *)
Definition photo_P : Photo :=
  {| photo_ID := 0; photo_AreaID := 1; photo_StorageKey := 0 |}.

Definition item_row (id : nat) (name qty : string) : Item :=
  {| item_ID := id; item_AreaID := 1; item_PhotoID := Some 0;
     item_Name := runes name; item_Quantity := runes qty; item_Notes := [] |}.

Definition store_A : Store :=
  {| blobs := [0]; photos := [photo_P];
     items := [item_row 1 "Milk" "1"; item_row 2 "Butter" "1"];
     next_key := 1; next_id := 3 |}.

Definition env_with (oc : CreateOutcome) (analyze_ok photo_del_ok blob_del_ok : bool)
  : Env :=
  {| env_area := LookupFound; env_streaming := true; env_save_ok := true;
     env_photo_create := oc; env_analyze_ok := analyze_ok;
     env_photo_delete_ok := photo_del_ok; env_blob_delete_ok := blob_del_ok;
     env_delete_items_ok := true; env_item_create := fun _ => CreateOk |}.

(* ================================================================= *)
(** ** [web]: handleStreamPhoto *)

(** The pieces the handler writes to the response, one per [w.Write]:
    ["data: "], the JSON object [enc.Encode] writes for an item (the map
    [{"name", "quantity", "notes"}] and a newline, in a single write),
    ["\n"], and the done event ["event: done\ndata: {}\n\n"]. *)
Inductive Chunk :=
| ChData
| ChJSON (name quantity notes : text)
| ChNewline
| ChDone.

Inductive Response :=
| RespHTTPError (code : nat) (msg : string)
| RespSSE (body : list Chunk).

(** The client connection accepts writes number [0 .. k-1] when
    [wfail = Some k], every write when [wfail = None]. *)
Definition write_ok (wfail : option nat) (j : nat) : bool :=
  match wfail with None => true | Some k => j <? k end.

(** [for ev := range itemCh { ... }] and the done event.  [recv] lists what
    the channel delivers before it is closed, each event paired with whether
    the request's context is cancelled when the event is received; [i] counts
    the writes made so far. *)
Fixpoint forward (wfail : option nat) (i : nat) (recv : list (bool * StreamEvent))
  : list Chunk :=
  match recv with
  | [] =>
      (* a failed write of the done event is only logged *)
      if write_ok wfail i then [ChDone] else []
  | (cancelled, ev) :: rest =>
      if cancelled then [] else
      match ev with
      | EvErr _ => []
      | EvItem it =>
          if negb (write_ok wfail i) then [] else
          if negb (write_ok wfail (S i)) then [ChData] else
          if negb (write_ok wfail (S (S i))) then
            [ChData; ChJSON (Name it) (Quantity it) (Notes it)]
          else
            ChData :: ChJSON (Name it) (Quantity it) (Notes it) :: ChNewline ::
            forward wfail (S (S (S i))) rest
      end
  end.

(** The handler from the call of [UploadPhotoStream] on ([begin = None]:
    that call failed). *)
Definition handleStreamPhoto (begin : option (list (bool * StreamEvent)))
    (wfail : option nat) : Response :=
  match begin with
  | None => RespHTTPError 500 "failed to process photo"
  | Some recv => RespSSE (forward wfail 0 recv)
  end.

Definition sse_body (r : Response) : list Chunk :=
  match r with RespSSE b => b | RespHTTPError _ _ => [] end.

Definition received_cleanly (recv : list (bool * StreamEvent)) : bool :=
  forallb (fun p => negb (fst p) && is_item (snd p)) recv.

Definition milk : DetectedItem :=
  {| Name := runes "Milk"; Quantity := runes "1"; Notes := runes "open" |}.

(* ================================================================= *)
(** ** The running pipeline: worker goroutine and forwarding handler

    After [UploadPhotoStream] returns, two goroutines run concurrently: the
    worker (receiving from the adapter's channel, creating items, sending on
    [out], a channel of capacity 16, closing it when it returns) and the
    handler's loop over [out].  We let the adapter's events be available to
    the worker at any time, which only gives the worker more freedom. *)

Definition out_cap : nat := 16.

Inductive HState := HActive | HReturned.

Record Pipe := {
  p_src : list StreamEvent;                (* events still to come on rawCh *)
  p_pending : option (StreamEvent * bool); (* the worker is at [out <- ev];
                                              true: it returns after the send *)
  p_out : list StreamEvent;                (* the buffer of [out] *)
  p_worker_done : bool;                    (* returned, [out] closed *)
  p_cancelled : bool;                      (* r.Context().Err() != nil *)
  p_handler : HState;
  p_received : nat;                        (* events the handler received *)
  p_store : Store;
  p_calls : nat                            (* itemStore.Create calls so far *)
}.

Section Pipeline.

Variable env : Env.
Variable areaID : nat.
Variable photo : Photo.

(** [ev := <-rawCh] with [ev.Item != nil]: create the item; on success the
    worker goes on to [out <- ev']. *)
Definition w_item (s : Pipe) (d : DetectedItem) (rest : list StreamEvent) : Pipe :=
  let '(r, st') := item_create (env_item_create env (p_calls s)) (p_store s) areaID
                     (Some (photo_ID photo)) d in
  {| p_src := rest;
     p_pending := match r with
                  | Some it => Some (EvItem {| Name := item_Name it;
                                               Quantity := item_Quantity it;
                                               Notes := item_Notes it |}, false)
                  | None => None
                  end;
     p_out := p_out s; p_worker_done := p_worker_done s; p_cancelled := p_cancelled s;
     p_handler := p_handler s; p_received := p_received s; p_store := st';
     p_calls := S (p_calls s) |}.

(** [ev := <-rawCh] with [ev.Err != nil]: forward it, then return. *)
Definition w_err (s : Pipe) (e : GoError) (rest : list StreamEvent) : Pipe :=
  {| p_src := rest; p_pending := Some (EvErr e, true);
     p_out := p_out s; p_worker_done := p_worker_done s; p_cancelled := p_cancelled s;
     p_handler := p_handler s; p_received := p_received s; p_store := p_store s;
     p_calls := p_calls s |}.

(** rawCh closed: the range ends, [close(out)]. *)
Definition w_end (s : Pipe) : Pipe :=
  {| p_src := p_src s; p_pending := None;
     p_out := p_out s; p_worker_done := true; p_cancelled := p_cancelled s;
     p_handler := p_handler s; p_received := p_received s; p_store := p_store s;
     p_calls := p_calls s |}.

(** [out <- ev] completes (there is room in the buffer). *)
Definition w_send (s : Pipe) (ev : StreamEvent) (last : bool) : Pipe :=
  {| p_src := p_src s; p_pending := None;
     p_out := p_out s ++ [ev]; p_worker_done := last; p_cancelled := p_cancelled s;
     p_handler := p_handler s; p_received := p_received s; p_store := p_store s;
     p_calls := p_calls s |}.

(** The handler's range receives [ev]; it returns when the request context is
    cancelled or [ev] is an error, and otherwise writes the item. *)
Definition h_recv (s : Pipe) (ev : StreamEvent) (rest : list StreamEvent) : Pipe :=
  {| p_src := p_src s; p_pending := p_pending s;
     p_out := rest; p_worker_done := p_worker_done s; p_cancelled := p_cancelled s;
     p_handler := if p_cancelled s || negb (is_item ev) then HReturned else HActive;
     p_received := S (p_received s); p_store := p_store s;
     p_calls := p_calls s |}.

(** [out] closed and drained: the done event, then return. *)
Definition h_close (s : Pipe) : Pipe :=
  {| p_src := p_src s; p_pending := p_pending s;
     p_out := p_out s; p_worker_done := p_worker_done s; p_cancelled := p_cancelled s;
     p_handler := HReturned; p_received := p_received s; p_store := p_store s;
     p_calls := p_calls s |}.

Definition cancel (s : Pipe) : Pipe :=
  {| p_src := p_src s; p_pending := p_pending s;
     p_out := p_out s; p_worker_done := p_worker_done s; p_cancelled := true;
     p_handler := p_handler s; p_received := p_received s; p_store := p_store s;
     p_calls := p_calls s |}.

Inductive step : Pipe -> Pipe -> Prop :=
| WRecvItem s d rest :
    p_worker_done s = false -> p_pending s = None -> p_src s = EvItem d :: rest ->
    step s (w_item s d rest)
| WRecvErr s e rest :
    p_worker_done s = false -> p_pending s = None -> p_src s = EvErr e :: rest ->
    step s (w_err s e rest)
| WEnd s :
    p_worker_done s = false -> p_pending s = None -> p_src s = [] ->
    step s (w_end s)
| WSend s ev last :
    p_pending s = Some (ev, last) -> List.length (p_out s) < out_cap ->
    step s (w_send s ev last)
| HRecv s ev rest :
    p_handler s = HActive -> p_out s = ev :: rest ->
    step s (h_recv s ev rest)
| HClose s :
    p_handler s = HActive -> p_out s = [] -> p_worker_done s = true ->
    step s (h_close s)
| Cancel s :
    p_cancelled s = false -> step s (cancel s).

Inductive star : Pipe -> Pipe -> Prop :=
| star_refl s : star s s
| star_step s1 s2 s3 : step s1 s2 -> star s2 s3 -> star s1 s3.

(** A scheduler: the first enabled step other than a cancellation. *)
Definition try_hrecv (s : Pipe) : option Pipe :=
  match p_handler s, p_out s with
  | HActive, ev :: rest => Some (h_recv s ev rest)
  | _, _ => None
  end.

Definition try_wsend (s : Pipe) : option Pipe :=
  match p_pending s with
  | Some (ev, last) => if List.length (p_out s) <? out_cap then Some (w_send s ev last) else None
  | None => None
  end.

Definition try_wrecv (s : Pipe) : option Pipe :=
  if p_worker_done s then None else
  match p_pending s with
  | Some _ => None
  | None =>
      match p_src s with
      | EvItem d :: rest => Some (w_item s d rest)
      | EvErr e :: rest => Some (w_err s e rest)
      | [] => Some (w_end s)
      end
  end.

Definition try_hclose (s : Pipe) : option Pipe :=
  match p_handler s, p_out s, p_worker_done s with
  | HActive, [], true => Some (h_close s)
  | _, _, _ => None
  end.

Definition sched (s : Pipe) : option Pipe :=
  match try_hrecv s with
  | Some s' => Some s'
  | None =>
    match try_wsend s with
    | Some s' => Some s'
    | None =>
      match try_wrecv s with
      | Some s' => Some s'
      | None => try_hclose s
      end
    end
  end.

Fixpoint run (fuel : nat) (s : Pipe) : Pipe :=
  match fuel with
  | 0 => s
  | S f => match sched s with Some s' => run f s' | None => s end
  end.

End Pipeline.

(** The upload of Scenario A that succeeds: the new photo is [photo_A]. *)
Definition env_ok : Env := env_with CreateOk true true true.

Definition photo_A : Photo :=
  {| photo_ID := 3; photo_AreaID := 1; photo_StorageKey := 1 |}.

Definition demo_item (k : nat) : DetectedItem :=
  {| Name := [N.of_nat (65 + k)]; Quantity := runes "1"; Notes := [] |}.

Definition twenty_items : list StreamEvent := map (fun k => EvItem (demo_item k)) (seq 0 20).

(** The pipeline when [UploadPhotoStream] has returned, the adapter will
    deliver twenty items, and the request is ([cancelled = true]) or is not
    cancelled from then on. *)
Definition pipe_start (cancelled : bool) : Pipe :=
  {| p_src := twenty_items; p_pending := None; p_out := [];
     p_worker_done := false; p_cancelled := cancelled; p_handler := HActive;
     p_received := 0;
     p_store := snd (fst (UploadPhotoStream env_ok store_A 1));
     p_calls := 0 |}.

(* ================================================================= *)
(** ** Auxiliary notions used in the proofs *)

(** Apply [f] to the first, respectively the last, element of a list. *)
Definition map_first (f : text -> text) (l : list text) : list text :=
  match l with [] => [] | x :: r => f x :: r end.

Fixpoint map_last (f : text -> text) (l : list text) : list text :=
  match l with
  | [] => []
  | [x] => [f x]
  | x :: r => x :: map_last f r
  end.

(** The discipline on [DeleteByAreaID] calls in a trace. *)
Definition delete_discipline (ops : list Op) : Prop :=
  List.length (filter is_delete_items ops) <= 1 /\
  existsb is_delete_items ops = existsb is_stream_accepted ops /\
  (forall pre post, ops = pre ++ ODeleteItems :: post ->
                    existsb is_stream_accepted pre = true).

Definition pend (s : Pipe) : nat :=
  match p_pending s with Some _ => 1 | None => 0 end.

(** What holds along every run of Scenario A once the request is cancelled
    before the handler receives anything. *)
Definition cancelled_inv (s : Pipe) : Prop :=
  p_cancelled s = true /\
  forallb is_item (p_src s) = true /\
  (forall ev last, p_pending s = Some (ev, last) -> last = false) /\
  List.length (items (p_store s)) = p_received s + List.length (p_out s) + pend s /\
  List.length (p_out s) <= out_cap /\
  (p_handler s = HActive -> p_received s = 0) /\
  p_received s <= 1.

(* ================================================================= *)
(** ** [internal/service]: UploadPhoto, DeletePhoto, UpdateItem, DeleteItem *)

(** The loop of [UploadPhoto] over [result.Items], from the [n]-th
    [itemStore.Create] on: a failed create is logged and skipped. *)
Fixpoint create_items (env : Env) (areaID photoID n : nat)
    (ds : list DetectedItem) (st : Store) : list Item * Store :=
  match ds with
  | [] => ([], st)
  | d :: rest =>
      match item_create (env_item_create env n) st areaID (Some photoID) d with
      | (None, st1) => create_items env areaID photoID (S n) rest st1
      | (Some it, st1) =>
          let (its, st2) := create_items env areaID photoID (S n) rest st1 in
          (it :: its, st2)
      end
  end.

(** What [UploadPhoto] returns: the photo, the items, the error. *)
Inductive UploadResult :=
| UploadErr (photo : option Photo) (e : GoError)
| UploadOk (photo : Photo) (its : list Item).

(** [AreaService.UploadPhoto].  [analysis] is the answer of
    [visionAPI.Analyze]: [None] for an error, [Some ds] for a result whose
    [Items] are [ds]. *)
Definition UploadPhoto (env : Env) (analysis : option (list DetectedItem))
    (st : Store) (areaID : nat) : UploadResult * Store :=
  match env_area env with
  | LookupErr => (UploadErr None "failed to get area"%string, st)
  | LookupNil => (UploadErr None "area not found"%string, st)
  | LookupFound =>
      match analysis with
      | None => (UploadErr None "failed to analyze image"%string, st)
      | Some ds =>
          if negb (env_save_ok env) then (UploadErr None "failed to save photo"%string, st)
          else
            let (storageKey, st1) := blob_save st in
            match photo_create (env_photo_create env) st1 areaID storageKey with
            | (None, st2) =>
                (* _ = s.photoStg.Delete(ctx, storageKey) *)
                let st3 := snd (blob_delete (env_blob_delete_ok env) st2 storageKey) in
                (UploadErr None "failed to create photo record"%string, st3)
            | (Some photo, st2) =>
                let (ok, st3) := items_delete_by_area (env_delete_items_ok env) st2 areaID in
                if negb ok then
                  (UploadErr (Some photo) "failed to delete old items"%string, st3)
                else
                  let (its, st4) := create_items env areaID (photo_ID photo) 0 ds st3 in
                  (UploadOk photo its, st4)
            end
      end
  end.









Section DeletePhoto.

(** [PhotoStore.GetLatestByAreaID] answers with the area's photo of latest
    [uploaded_at] ([ORDER BY uploaded_at DESC LIMIT 1]), or nil when the area
    has none.  Upload times are not part of the store, so the choice among the
    area's photo rows is [latest]. *)
Variable latest : list Photo -> option Photo.



End DeletePhoto.

(* ================================================================= *)
(** ** [web]: allowedImageMIME, handleCreateArea; [claude]: normaliseMIME *)

Definition bytes := list Byte.byte.

Fixpoint bytes_eqb (a b : bytes) : bool :=
  match a, b with
  | [], [] => true
  | x :: xs, y :: ys => Byte.eqb x y && bytes_eqb xs ys
  | _, _ => false
  end.

(** [isWebP]: [len(data) >= 12 && string(data[0:4]) == "RIFF" &&
    string(data[8:12]) == "WEBP"]. *)
Definition isWebP (data : bytes) : bool :=
  (12 <=? List.length data) &&
  bytes_eqb (firstn 4 data) (list_byte_of_string "RIFF") &&
  bytes_eqb (firstn 4 (skipn 8 data)) (list_byte_of_string "WEBP").

(** [allowedImageTypes[mime]] *)
Definition allowedImageTypes (mime : string) : bool :=
  String.eqb mime "image/jpeg" || String.eqb mime "image/png" ||
  String.eqb mime "image/gif".

(** [allowedImageMIME]; [DetectContentType] is [net/http]'s sniffer. *)
Definition allowedImageMIME (DetectContentType : bytes -> string) (data : bytes)
  : string * bool :=
  if isWebP data then ("image/webp"%string, true)
  else
    let mime := DetectContentType data in
    if allowedImageTypes mime then (mime, true) else (""%string, false).

(** [claude.normaliseMIME] *)
Definition normaliseMIME (mimeType : string) : string :=
  if String.eqb mimeType "image/png" || String.eqb mimeType "image/gif" ||
     String.eqb mimeType "image/webp"
  then mimeType else "image/jpeg"%string.

Definition maxAreaNameLen : nat := 200.

(** The length of the UTF-8 encoding of a rune, as [utf8.EncodeRune] writes
    it for a valid rune: [len(name)] of a Go string is the sum over its runes. *)
Definition RuneLen (r : rune) : nat :=
  if (r <? 128)%N then 1
  else if (r <? 2048)%N then 2
  else if (r <? 65536)%N then 3
  else 4.

Definition byte_len (s : text) : nat := fold_right (fun r n => RuneLen r + n) 0 s.

(** The answer of [handleCreateArea]: an [http.Error], or the area card of
    the area created with the given name. *)
Inductive CreateAreaResponse :=
| CAHTTPError (code : nat) (msg : string)
| CACreated (name : text).

(** [Server.handleCreateArea] for the form value [form] (a valid UTF-8
    string, given by its runes); [create_ok] is whether [CreateArea]
    succeeds. *)
Definition handleCreateArea (create_ok : bool) (form : text) : CreateAreaResponse :=
  let name := TrimSpace form in
  if is_empty name then CAHTTPError 400 "area name required"
  else if maxAreaNameLen <? byte_len name then CAHTTPError 400 "area name too long"
  else if create_ok then CACreated name
  else CAHTTPError 500 "failed to create area".

(** The environment in which [itemStore.DeleteByAreaID] fails. *)
Definition env_delete_items_fails : Env :=
  {| env_area := LookupFound; env_streaming := true; env_save_ok := true;
     env_photo_create := CreateOk; env_analyze_ok := true;
     env_photo_delete_ok := true; env_blob_delete_ok := true;
     env_delete_items_ok := false; env_item_create := fun _ => CreateOk |}.



(* ================================================================= *)
(* ================================================================= *)
(** * Properties *)

(** ** Concrete runs of the parser *)

Example parse_line_ex1 :
  ParseLine (runes " Milk | 2 liters | semi-skimmed ")
  = Some {| Name := runes "Milk"; Quantity := runes "2 liters";
            Notes := runes "semi-skimmed" |}.
Proof. reflexivity. Qed.

Example parse_line_ex2 : ParseLine (runes "Here is the list:") = None.
Proof. reflexivity. Qed.

Example parse_line_ex3 : ParseLine (runes " | 1 | x") = None.
Proof. reflexivity. Qed.

Example parse_response_ex :
  ParseResponse (runes "Items:
Milk | 2
Butter | 1 | opened | extra")
  = [ {| Name := runes "Milk"; Quantity := runes "2"; Notes := [] |};
      {| Name := runes "Butter"; Quantity := runes "1"; Notes := runes "opened" |} ].
Proof. reflexivity. Qed.

(** ** Parser lemmas *)

Module ParserFacts.

Lemma pipe_not_space : IsSpace pipe = false.
Proof. reflexivity. Qed.

Lemma Split_not_nil : forall s c, Split s c <> [].
Proof.
  intros s c; destruct s as [|x r]; simpl; [discriminate|].
  destruct (x =? c)%N; [discriminate|].
  destruct (Split r c); discriminate.
Qed.

Lemma TrimLeft_idem : forall s, TrimLeft (TrimLeft s) = TrimLeft s.
Proof.
  induction s as [|c r IH]; simpl; [reflexivity|].
  case_eq (IsSpace c); intro Hc; [exact IH|simpl; rewrite Hc; reflexivity].
Qed.

Lemma TrimRight_nil_spaces : forall s c,
  TrimRight s = [] -> IsSpace c = false -> Split s c = [s].
Proof.
  induction s as [|x r IH]; intros c Hs Hc; simpl in *; [reflexivity|].
  destruct (TrimRight r) eqn:Er; [|discriminate].
  case_eq (IsSpace x); intro Hx; rewrite Hx in Hs; [|discriminate].
  rewrite (IH c eq_refl Hc).
  destruct (N.eqb_spec x c); [subst; congruence|reflexivity].
Qed.

Lemma Split_TrimLeft : forall s c, IsSpace c = false ->
  Split (TrimLeft s) c = map_first TrimLeft (Split s c).
Proof.
  induction s as [|x r IH]; intros c Hc; simpl; [reflexivity|].
  case_eq (IsSpace x); intro Hx.
  - destruct (N.eqb_spec x c); [subst; congruence|].
    rewrite (IH c Hc).
    pose proof (Split_not_nil r c) as Hne.
    destruct (Split r c) as [|f fs]; [congruence|]. simpl. rewrite Hx. reflexivity.
  - simpl. destruct (N.eqb_spec x c); [reflexivity|].
    pose proof (Split_not_nil r c) as Hne.
    destruct (Split r c) as [|f fs]; [congruence|]. simpl. rewrite Hx. reflexivity.
Qed.

Lemma map_last_cons : forall f x l, l <> [] -> map_last f (x :: l) = x :: map_last f l.
Proof. intros f x [|y l] H; [congruence|reflexivity]. Qed.

Lemma Split_single : forall r c f, Split r c = [f] -> f = r.
Proof.
  induction r as [|y r IH]; intros c f Es; simpl in Es.
  - injection Es; auto.
  - pose proof (Split_not_nil r c) as Hne.
    destruct (N.eqb y c).
    { destruct (Split r c); [congruence|discriminate]. }
    destruct (Split r c) as [|f' [|g' fs']] eqn:E'; [congruence| |discriminate].
    injection Es as <-. f_equal. apply (IH c); exact E'.
Qed.

Lemma Split_cons : forall x r c, Split (x :: r) c =
  if (x =? c)%N then [] :: Split r c
  else match Split r c with f :: fs => (x :: f) :: fs | [] => [[x]] end.
Proof. reflexivity. Qed.

Lemma Split_TrimRight : forall s c, IsSpace c = false ->
  Split (TrimRight s) c = map_last TrimRight (Split s c).
Proof.
  induction s as [|x r IH]; intros c Hc; [reflexivity|].
  change (TrimRight (x :: r)) with
    (match TrimRight r with [] => if IsSpace x then [] else [x] | t => x :: t end).
  rewrite (Split_cons x r c).
  pose proof (Split_not_nil r c) as Hne.
  destruct (TrimRight r) as [|t0 t] eqn:Er.
  - rewrite (TrimRight_nil_spaces r c Er Hc).
    case_eq (IsSpace x); intro Hx.
    + destruct (N.eqb_spec x c); [subst; congruence|].
      simpl. rewrite Er, Hx. reflexivity.
    + destruct (N.eqb_spec x c) as [->|Hxc].
      * simpl. rewrite N.eqb_refl, Er. reflexivity.
      * simpl. rewrite Er, Hx. simpl.
        destruct (N.eqb_spec x c); [congruence|reflexivity].
  - rewrite (Split_cons x (t0 :: t) c), (IH c Hc).
    destruct (N.eqb_spec x c).
    + rewrite map_last_cons by exact Hne. reflexivity.
    + destruct (Split r c) as [|f [|g fs]] eqn:Es; [congruence| |].
      * rewrite (Split_single r c f Es). simpl. rewrite Er. reflexivity.
      * reflexivity.
Qed.

Lemma TrimRight_idem : forall s, TrimRight (TrimRight s) = TrimRight s.
Proof.
  induction s as [|c r IH]; [reflexivity|].
  simpl. destruct (TrimRight r) as [|t0 t] eqn:Er.
  - case_eq (IsSpace c); intro Hc; [reflexivity|simpl; rewrite Hc; reflexivity].
  - change (TrimRight (c :: t0 :: t)) with
      (match TrimRight (t0 :: t) with [] => if IsSpace c then [] else [c]
       | u => c :: u end).
    rewrite IH. reflexivity.
Qed.

Lemma TrimLeft_TrimRight : forall s, TrimLeft (TrimRight s) = TrimRight (TrimLeft s).
Proof.
  induction s as [|c r IH]; [reflexivity|].
  simpl. case_eq (IsSpace c); intro Hc.
  - rewrite <- IH. destruct (TrimRight r) as [|t0 t]; simpl; [reflexivity|].
    rewrite Hc. reflexivity.
  - simpl. destruct (TrimRight r) as [|t0 t]; simpl; rewrite Hc; reflexivity.
Qed.

Lemma TrimSpace_TrimLeft : forall s, TrimSpace (TrimLeft s) = TrimSpace s.
Proof. intro s; unfold TrimSpace; rewrite TrimLeft_idem; reflexivity. Qed.

Lemma TrimSpace_TrimRight : forall s, TrimSpace (TrimRight s) = TrimSpace s.
Proof.
  intro s; unfold TrimSpace. rewrite TrimLeft_TrimRight, TrimRight_idem. reflexivity.
Qed.

Lemma TrimSpace_nil : TrimSpace [] = [].
Proof. reflexivity. Qed.

Lemma Contains_TrimLeft : forall s c, IsSpace c = false ->
  Contains (TrimLeft s) c = Contains s c.
Proof.
  induction s as [|x r IH]; intros c Hc; [reflexivity|].
  simpl. case_eq (IsSpace x); intro Hx; [|reflexivity].
  rewrite IH by exact Hc. destruct (N.eqb_spec c x); [subst; congruence|reflexivity].
Qed.

Lemma Contains_TrimRight : forall s c, IsSpace c = false ->
  Contains (TrimRight s) c = Contains s c.
Proof.
  induction s as [|x r IH]; intros c Hc; [reflexivity|].
  specialize (IH c Hc).
  change (Contains (x :: r) c) with ((c =? x)%N || Contains r c).
  simpl TrimRight. destruct (TrimRight r) as [|t0 t].
  - simpl in IH. rewrite <- IH, orb_false_r.
    case_eq (IsSpace x); intro Hx; simpl.
    + destruct (N.eqb_spec c x); [subst; congruence|reflexivity].
    + rewrite orb_false_r. reflexivity.
  - change (Contains (x :: t0 :: t) c) with ((c =? x)%N || Contains (t0 :: t) c).
    rewrite IH. reflexivity.
Qed.

Lemma Contains_TrimSpace : forall s, Contains (TrimSpace s) pipe = Contains s pipe.
Proof.
  intro s; unfold TrimSpace.
  rewrite Contains_TrimRight, Contains_TrimLeft by reflexivity. reflexivity.
Qed.

Lemma nth_map_first_trim : forall f l i,
  (forall x, TrimSpace (f x) = TrimSpace x) ->
  TrimSpace (nth i (map_first f l) []) = TrimSpace (nth i l []).
Proof. intros f [|x l] [|i] Hf; simpl; auto. Qed.

Lemma nth_map_last_trim : forall f l i,
  (forall x, TrimSpace (f x) = TrimSpace x) ->
  TrimSpace (nth i (map_last f l) []) = TrimSpace (nth i l []).
Proof.
  intros f l; induction l as [|x l IH]; intros i Hf; [destruct i; reflexivity|].
  destruct l as [|y l].
  - destruct i as [|[|i]]; simpl; auto.
  - rewrite map_last_cons by discriminate.
    destruct i; simpl; [reflexivity|]. apply IH; exact Hf.
Qed.

Lemma length_map_first : forall f l, List.length (map_first f l) = List.length l.
Proof. intros f [|x l]; reflexivity. Qed.

Lemma length_map_last : forall f l, List.length (map_last f l) = List.length l.
Proof.
  intros f l; induction l as [|x l IH]; [reflexivity|].
  destruct l as [|y l]; [reflexivity|].
  rewrite map_last_cons by discriminate. simpl in *. rewrite IH. reflexivity.
Qed.

Lemma Split_TrimSpace : forall s,
  Split (TrimSpace s) pipe = map_last TrimRight (map_first TrimLeft (Split s pipe)).
Proof.
  intro s; unfold TrimSpace.
  rewrite Split_TrimRight, Split_TrimLeft by reflexivity. reflexivity.
Qed.

Lemma field_TrimSpace : forall i s,
  TrimSpace (nth i (Split (TrimSpace s) pipe) []) = field i s.
Proof.
  intros i s; unfold field. rewrite Split_TrimSpace.
  rewrite nth_map_last_trim by exact TrimSpace_TrimRight.
  apply nth_map_first_trim; exact TrimSpace_TrimLeft.
Qed.

Lemma optional_field : forall (l : list text) i,
  (if S i <=? List.length l then TrimSpace (nth i l []) else []) = TrimSpace (nth i l []).
Proof.
  intros l i. destruct (Nat.leb_spec (S i) (List.length l)); [reflexivity|].
  rewrite nth_overflow by lia. reflexivity.
Qed.

Lemma TrimSpace_nonempty_of_pipe : forall s,
  Contains s pipe = true -> is_empty (TrimSpace s) = false.
Proof.
  intros s H. rewrite <- Contains_TrimSpace in H.
  destruct (TrimSpace s); [discriminate|reflexivity].
Qed.

(** ParseLine in terms of the fields of the untrimmed line. *)
Lemma ParseLine_fields : forall L,
  ParseLine L =
  if is_empty (TrimSpace L) || negb (Contains L pipe) || is_empty (field 0 L)
  then None
  else Some {| Name := field 0 L; Quantity := field 1 L; Notes := field 2 L |}.
Proof.
  intro L. unfold ParseLine. cbv zeta.
  rewrite Contains_TrimSpace.
  rewrite (optional_field (Split (TrimSpace L) pipe) 1),
          (optional_field (Split (TrimSpace L) pipe) 2).
  rewrite !field_TrimSpace.
  destruct (is_empty (TrimSpace L)); [reflexivity|].
  destruct (Contains L pipe); reflexivity.
Qed.

Lemma Split_app_sep : forall f rest,
  Contains f pipe = false -> Split (f ++ pipe :: rest) pipe = f :: Split rest pipe.
Proof.
  induction f as [|x f IH]; intros rest Hf.
  - reflexivity.
  - change (Contains (x :: f) pipe) with ((pipe =? x)%N || Contains f pipe) in Hf.
    apply orb_false_iff in Hf as [Hx Hf].
    cbn [app]. rewrite Split_cons, N.eqb_sym, Hx, (IH rest Hf). reflexivity.
Qed.

Lemma parse_lines_acc : forall acc ls,
  parse_lines acc ls = acc ++ List.concat (map (fun l => option_list (ParseLine l)) ls).
Proof.
  intros acc ls; revert acc; induction ls as [|l ls IH]; intro acc; simpl.
  - rewrite app_nil_r. reflexivity.
  - rewrite IH. destruct (ParseLine l); simpl.
    + rewrite <- app_assoc. reflexivity.
    + reflexivity.
Qed.

End ParserFacts.

(** ** Properties of the line parser *)

(** C3: batch/stream parity.  For every input string [s], [ParseResponse s]
    is the concatenation, in order, of the per-line results of [ParseLine]
    on the lines of [s] split on newline. *)
Theorem ParseResponse_line_parity : forall s,
  ParseResponse s =
  List.concat (map (fun l => option_list (ParseLine l)) (Split s newline)).
Proof.
  intro s. unfold ParseResponse. rewrite ParserFacts.parse_lines_acc. reflexivity.
Qed.

(** C4: [ParseLine L] yields no item iff [L] is blank after trimming, has no
    ['|'], or its first field trims to empty; otherwise it yields the item
    whose Name, Quantity and Notes are the independently trimmed first,
    second and third ['|']-delimited fields of [L] (empty when absent). *)
Theorem ParseLine_characterisation : forall L,
  (ParseLine L = None <->
     TrimSpace L = [] \/ Contains L pipe = false \/ field 0 L = [])
  /\ ParseLine L =
     if is_empty (TrimSpace L) || negb (Contains L pipe) || is_empty (field 0 L)
     then None
     else Some {| Name := field 0 L; Quantity := field 1 L; Notes := field 2 L |}.
Proof.
  intro L. rewrite ParserFacts.ParseLine_fields.
  split; [|reflexivity].
  destruct (TrimSpace L) as [|t0 t] eqn:ET; simpl; [split; auto|].
  destruct (Contains L pipe); simpl; [|split; auto].
  destruct (field 0 L) as [|n0 n]; simpl; [split; auto|].
  split; [discriminate|]. intros [H|[H|H]]; discriminate.
Qed.

(** C10, as stated: "every line with three or more ['|'] separators yields an
    item whose Notes is the trimmed third field".  It fails on a line whose
    first field is blank: [ParseLine] returns no item at all. *)
Lemma ParseLine_three_pipes_blank_name :
  ~ (forall L, 3 <= count_pipes L ->
       exists it, ParseLine L = Some it /\ Notes it = field 2 L).
Proof.
  intro H. destruct (H (runes " | 1 | fresh | extra")) as [it [Hit _]].
  - vm_compute. lia.
  - vm_compute in Hit. discriminate.
Qed.

(** C10, amended: for a line [f0 | f1 | f2 | t] (three separators or more,
    [t] arbitrary, possibly holding further separators) whose first field is
    not blank, [ParseLine] returns the item whose Notes is only the trimmed
    third field; the text [t] after the third separator is discarded: the
    result does not depend on it. *)
Theorem ParseLine_drops_after_third_pipe : forall f0 f1 f2 t,
  Contains f0 pipe = false -> Contains f1 pipe = false ->
  Contains f2 pipe = false -> TrimSpace f0 <> [] ->
  ParseLine (f0 ++ pipe :: f1 ++ pipe :: f2 ++ pipe :: t)
  = Some {| Name := TrimSpace f0; Quantity := TrimSpace f1;
            Notes := TrimSpace f2 |}.
Proof.
  intros f0 f1 f2 t H0 H1 H2 Hn.
  rewrite ParserFacts.ParseLine_fields.
  unfold field.
  rewrite !ParserFacts.Split_app_sep by assumption.
  assert (HC : Contains (f0 ++ pipe :: f1 ++ pipe :: f2 ++ pipe :: t) pipe = true).
  { unfold Contains. rewrite existsb_app. cbn [existsb]. rewrite N.eqb_refl, orb_true_l, orb_true_r. reflexivity. }
  rewrite HC, (ParserFacts.TrimSpace_nonempty_of_pipe _ HC). simpl.
  destruct (TrimSpace f0); [congruence|reflexivity].
Qed.

Lemma ParseLine_drops_after_third_pipe_witness :
  ParseLine (runes "Milk " ++ pipe :: runes " 2 l " ++ pipe :: runes " opened "
             ++ pipe :: runes " expires soon | keep cold")
  = Some {| Name := runes "Milk"; Quantity := runes "2 l"; Notes := runes "opened" |}.
Proof.
  apply (ParseLine_drops_after_third_pipe (runes "Milk ") (runes " 2 l ")
           (runes " opened ") (runes " expires soon | keep cold"));
    vm_compute; [reflexivity | reflexivity | reflexivity | discriminate].
Defined.

(** ** Concrete runs of the adapters *)

Example ollama_stream_ex :
  ollama_stream demo_ollama_unmarshal ollama_done_run
  = [ EvItem {| Name := runes "Milk"; Quantity := runes "2 l"; Notes := [] |};
      EvItem {| Name := runes "Butter"; Quantity := runes "1"; Notes := [] |} ].
Proof. vm_compute. reflexivity. Qed.

Example ollama_broken_ex :
  ollama_stream demo_ollama_unmarshal ollama_broken_run
  = [ EvItem {| Name := runes "Milk"; Quantity := runes "2 l"; Notes := [] |};
      EvErr err_parse_chunk ].
Proof. vm_compute. reflexivity. Qed.

Example claude_stream_ex :
  claude_stream demo_claude_unmarshal claude_done_run
  = [ EvItem {| Name := runes "Eggs"; Quantity := runes "12"; Notes := [] |};
      EvItem {| Name := runes "Milk"; Quantity := runes "1"; Notes := runes "open" |} ].
Proof. vm_compute. reflexivity. Qed.

Example claude_read_error_ex :
  claude_stream demo_claude_unmarshal claude_read_error_run
  = [ EvItem {| Name := runes "Eggs"; Quantity := runes "12"; Notes := [] |};
      EvItem {| Name := runes "Milk"; Quantity := runes "1"; Notes := runes "open" |};
      EvErr err_read_claude_stream ].
Proof. vm_compute. reflexivity. Qed.

(** ** Adapter lemmas *)

Module AdapterFacts.

Lemma forallb_is_item_app : forall a b,
  forallb is_item (a ++ b) = forallb is_item a && forallb is_item b.
Proof. intros; apply forallb_app. Qed.

Lemma errors_last_items_app : forall a b,
  forallb is_item a = true -> errors_last (a ++ b) = errors_last b.
Proof.
  induction a as [|x a IH]; intros b H; [reflexivity|].
  destruct x; simpl in H; [|discriminate]. simpl. apply IH; exact H.
Qed.

Lemma flush_events_items : forall b, forallb is_item (flush_events b) = true.
Proof. intro b; unfold flush_events; destruct (ParseLine (TrimSpace b)); reflexivity. Qed.

Lemma accumulate_items : forall r buf, forallb is_item (snd (accumulate buf r)) = true.
Proof.
  induction r as [|c r IH]; intro buf; [reflexivity|].
  simpl. destruct (c =? newline)%N; [|apply IH].
  specialize (IH []). destruct (accumulate [] r) as [b' e'] eqn:E. simpl in *.
  rewrite forallb_app, IH. destruct (ParseLine (TrimSpace buf)); reflexivity.
Qed.

Lemma accumulate_all_items : forall rs buf,
  forallb is_item (snd (accumulate_all buf rs)) = true.
Proof.
  induction rs as [|r rs IH]; intro buf; [reflexivity|].
  simpl. pose proof (accumulate_items r buf) as H1.
  destruct (accumulate buf r) as [b1 e1].
  specialize (IH b1). destruct (accumulate_all b1 rs) as [b2 e2]. simpl in *.
  rewrite forallb_app, H1, IH. reflexivity.
Qed.

Lemma ctx_err_mono : forall c j k,
  ctx_err_at c k = false -> j <= k -> ctx_err_at c j = false.
Proof.
  intros [n|] j k H Hjk; simpl in *; [|reflexivity].
  apply Nat.leb_gt in H. apply Nat.leb_gt. lia.
Qed.

Lemma ollama_scan_errors_last : forall u c e lines i buf,
  errors_last (ollama_scan u c e i buf lines) = true.
Proof.
  induction lines as [|l rest IH]; intros i buf; simpl.
  - destruct (e && negb (ctx_err_at c i)); reflexivity.
  - destruct (ctx_err_at c i); [reflexivity|].
    destruct (u l) as [ch|]; [|reflexivity].
    pose proof (accumulate_items (chunk_response ch) buf) as H.
    destruct (accumulate buf (chunk_response ch)) as [b' evs]. simpl in H.
    destruct (chunk_done ch); rewrite errors_last_items_app by exact H; [|apply IH].
    unfold flush_events; destruct (ParseLine (TrimSpace b')); reflexivity.
Qed.

(** The Ollama loop over a prefix of decodable chunks that are not done. *)
Lemma ollama_scan_prefix : forall u c e p cs rest i buf,
  map u p = map Some cs ->
  forallb (fun ch => negb (chunk_done ch)) cs = true ->
  ctx_err_at c (i + List.length p) = false ->
  ollama_scan u c e i buf (p ++ rest) =
  let (b, evs) := accumulate_all buf (map chunk_response cs) in
  evs ++ ollama_scan u c e (i + List.length p) b rest.
Proof.
  induction p as [|l p IH]; intros cs rest i buf Hm Hd Hc.
  - destruct cs; [|discriminate]. simpl. rewrite Nat.add_0_r. reflexivity.
  - destruct cs as [|ch cs]; [discriminate|].
    simpl in Hm. injection Hm as Hl Hm. simpl in Hd.
    apply andb_true_iff in Hd as [Hd1 Hd2].
    cbn [app ollama_scan].
    rewrite (ctx_err_mono c i (i + List.length (l :: p))) by (assumption || simpl; lia).
    rewrite Hl. destruct (chunk_done ch); [discriminate|].
    cbn [map accumulate_all].
    destruct (accumulate buf (chunk_response ch)) as [b1 e1].
    rewrite (IH cs rest (S i) b1 Hm Hd2)
      by (replace (S i + List.length p) with (i + List.length (l :: p)) by (simpl; lia);
          exact Hc).
    destruct (accumulate_all b1 (map chunk_response cs)) as [b2 e2].
    rewrite <- app_assoc. do 3 f_equal. simpl. lia.
Qed.

Lemma claude_scan_items : forall u c lines i buf,
  forallb is_item (fst (claude_scan u c i buf lines)) = true.
Proof.
  induction lines as [|l rest IH]; intros i buf; [reflexivity|].
  cbn [claude_scan].
  destruct (ctx_err_at c i); [reflexivity|].
  destruct (negb (HasPrefix l (runes "data: "))); [apply IH|].
  destruct (text_eqb (skipn 6 l) (runes "[DONE]")); [reflexivity|].
  destruct (u (skipn 6 l)) as [ev|]; [|apply IH].
  destruct (negb (text_eqb (ev_type ev) (runes "content_block_delta"))
            || negb (text_eqb (delta_type ev) (runes "text_delta"))); [apply IH|].
  pose proof (accumulate_items (delta_text ev) buf) as H1.
  destruct (accumulate buf (delta_text ev)) as [b1 e1].
  specialize (IH (S i) b1).
  destruct (claude_scan u c (S i) b1 rest) as [e2 ex]. simpl in *.
  rewrite forallb_app, H1, IH. reflexivity.
Qed.

Lemma claude_scan_uncancelled : forall u lines i buf,
  exists j b, snd (claude_scan u None i buf lines) = CExited j b.
Proof.
  induction lines as [|l rest IH]; intros i buf; [eexists; eexists; reflexivity|].
  cbn [claude_scan ctx_err_at].
  destruct (negb (HasPrefix l (runes "data: "))); [apply IH|].
  destruct (text_eqb (skipn 6 l) (runes "[DONE]")); [eexists; eexists; reflexivity|].
  destruct (u (skipn 6 l)) as [ev|]; [|apply IH].
  destruct (negb (text_eqb (ev_type ev) (runes "content_block_delta"))
            || negb (text_eqb (delta_type ev) (runes "text_delta"))); [apply IH|].
  destruct (accumulate buf (delta_text ev)) as [b1 e1].
  destruct (IH (S i) b1) as [j [b Hj]].
  destruct (claude_scan u None (S i) b1 rest) as [e2 ex]. simpl in *.
  exists j, b; exact Hj.
Qed.

Lemma claude_tail_flush : forall b,
  (if negb (is_empty (TrimSpace b))
   then option_list (option_map EvItem (ParseLine (TrimSpace b))) else [])
  = flush_events b.
Proof.
  intro b; unfold flush_events.
  destruct (TrimSpace b) eqn:E; reflexivity.
Qed.

Lemma claude_stream_shape : forall u run,
  claude_stream u run =
  let (evs, ex) := claude_scan u (cancel_at run) 0 [] (body_lines run) in
  evs ++ match ex with
         | CReturned => []
         | CExited i buf =>
             flush_events buf ++
             (if read_err run && negb (ctx_err_at (cancel_at run) i)
              then [EvErr err_read_claude_stream] else [])
         end.
Proof.
  intros u run; unfold claude_stream.
  destruct (claude_scan u (cancel_at run) 0 [] (body_lines run)) as [evs [|i buf]];
    [reflexivity|].
  rewrite claude_tail_flush. reflexivity.
Qed.

Lemma claude_stream_errors_last : forall u run,
  errors_last (claude_stream u run) = true.
Proof.
  intros u run. rewrite claude_stream_shape.
  pose proof (claude_scan_items u (cancel_at run) (body_lines run) 0 []) as H.
  destruct (claude_scan u (cancel_at run) 0 [] (body_lines run)) as [evs ex].
  simpl in H. rewrite errors_last_items_app by exact H.
  destruct ex as [|i buf]; [reflexivity|].
  rewrite errors_last_items_app by apply flush_events_items.
  destruct (read_err run && negb (ctx_err_at (cancel_at run) i)); reflexivity.
Qed.

(** The Claude loop over a prefix of lines without [data: [DONE]]. *)
Lemma claude_scan_prefix : forall u c p rest i buf,
  forallb (fun l => negb (is_done_line l)) p = true ->
  ctx_err_at c (i + List.length p) = false ->
  claude_scan u c i buf (p ++ rest) =
  let (b, evs) := accumulate_all buf (claude_deltas u p) in
  let (evs', ex) := claude_scan u c (i + List.length p) b rest in
  (evs ++ evs', ex).
Proof.
  induction p as [|l p IH]; intros rest i buf Hd Hc.
  - simpl. rewrite Nat.add_0_r.
    destruct (claude_scan u c i buf rest); reflexivity.
  - simpl in Hd. apply andb_true_iff in Hd as [Hd1 Hd2].
    assert (Hc' : ctx_err_at c (S i + List.length p) = false)
      by (replace (S i + List.length p) with (i + List.length (l :: p)) by (simpl; lia);
          exact Hc).
    cbn [app claude_scan claude_deltas].
    rewrite (ctx_err_mono c i (i + List.length (l :: p))) by (assumption || simpl; lia).
    replace (i + List.length (l :: p)) with (S i + List.length p) by (simpl; lia).
    unfold is_done_line in Hd1.
    destruct (HasPrefix l (runes "data: ")); cbn [negb andb] in Hd1 |- *.
    + apply negb_true_iff in Hd1. rewrite Hd1.
      destruct (u (skipn 6 l)) as [ev|]; [|apply IH; assumption].
      destruct (negb (text_eqb (ev_type ev) (runes "content_block_delta"))
                || negb (text_eqb (delta_type ev) (runes "text_delta")));
        [apply IH; assumption|].
      cbn [app accumulate_all]. destruct (accumulate buf (delta_text ev)) as [b1 e1].
      rewrite (IH rest (S i) b1 Hd2 Hc').
      destruct (accumulate_all b1 (claude_deltas u p)) as [b2 e2].
      destruct (claude_scan u c (S i + List.length p) b2 rest) as [e3 ex].
      rewrite app_assoc. reflexivity.
    + apply IH; assumption.
Qed.

Lemma accumulate_all_snoc : forall rs r buf,
  accumulate_all buf (rs ++ [r]) =
  let (b1, e1) := accumulate_all buf rs in
  let (b2, e2) := accumulate b1 r in (b2, e1 ++ e2).
Proof.
  induction rs as [|r0 rs IH]; intros r buf; simpl.
  - destruct (accumulate buf r) as [b e]; rewrite !app_nil_r; reflexivity.
  - destruct (accumulate buf r0) as [b1 e1]. rewrite IH.
    destruct (accumulate_all b1 rs) as [b2 e2].
    destruct (accumulate b2 r) as [b3 e3]. rewrite app_assoc. reflexivity.
Qed.

Lemma ollama_scan_fails : forall u e lines i buf,
  ollama_fails u lines e = true -> ends_with_one_err (ollama_scan u None e i buf lines).
Proof.
  induction lines as [|l rest IH]; intros i buf H; simpl in H |- *.
  - rewrite H. exists [], err_read_stream. split; reflexivity.
  - destruct (u l) as [ch|].
    + destruct (chunk_done ch); [discriminate|].
      pose proof (accumulate_items (chunk_response ch) buf) as Hi.
      destruct (accumulate buf (chunk_response ch)) as [b' evs].
      destruct (IH (S i) b' H) as [items [err [Heq Hit]]].
      exists (evs ++ items), err. rewrite Heq, app_assoc. split; [reflexivity|].
      simpl in Hi. rewrite forallb_app, Hi, Hit. reflexivity.
    + exists [], err_parse_chunk. split; reflexivity.
Qed.

Lemma claude_stream_read_error : forall u run,
  cancel_at run = None -> read_err run = true -> ends_with_one_err (claude_stream u run).
Proof.
  intros u run Hc He. rewrite claude_stream_shape.
  pose proof (claude_scan_items u (cancel_at run) (body_lines run) 0 []) as Hi.
  rewrite Hc in Hi |- *.
  destruct (claude_scan_uncancelled u (body_lines run) 0 []) as [j [b Hj]].
  destruct (claude_scan u None 0 [] (body_lines run)) as [evs ex].
  simpl in Hj, Hi. subst ex. rewrite He. simpl.
  exists (evs ++ flush_events b), err_read_claude_stream.
  rewrite app_assoc. split; [reflexivity|].
  rewrite forallb_app, Hi, flush_events_items. reflexivity.
Qed.

Lemma data_done_line : is_done_line (runes "data: [DONE]") = true.
Proof. reflexivity. Qed.

End AdapterFacts.

(** ** Properties of the streaming adapters *)

(** C5, as stated, for the Claude adapter: "a malformed chunk makes the
    adapter emit exactly one error event".  A data line that does not decode
    is skipped ([continue]); the stream goes on, emits an item and closes
    without any error event. *)
Lemma claude_malformed_chunk_no_error :
  claude_stream demo_claude_unmarshal claude_malformed_run
    = [ EvItem {| Name := runes "Milk"; Quantity := runes "1"; Notes := runes "open" |} ]
  /\ ~ ends_with_one_err (claude_stream demo_claude_unmarshal claude_malformed_run).
Proof.
  split; [vm_compute; reflexivity|].
  intros [items [e [H _]]]. vm_compute in H.
  apply (f_equal (@rev StreamEvent)) in H. rewrite rev_app_distr in H.
  simpl in H. discriminate.
Qed.

(** C5, amended: neither adapter ever sends anything after an error event
    (at most one error, as the last event before the channel is closed).
    Without cancellation, the Ollama adapter ends with exactly one error
    event when a chunk fails to decode or the read fails before the done
    marker, and the Claude adapter ends with exactly one error event when the
    read fails (after flushing its trailing line); the Claude adapter skips
    data lines that fail to decode. *)
Theorem adapters_single_terminal_error : forall ou cu run,
  errors_last (ollama_stream ou run) = true /\
  errors_last (claude_stream cu run) = true /\
  (cancel_at run = None -> ollama_fails ou (body_lines run) (read_err run) = true ->
     ends_with_one_err (ollama_stream ou run)) /\
  (cancel_at run = None -> read_err run = true ->
     ends_with_one_err (claude_stream cu run)).
Proof.
  intros ou cu run. split; [apply AdapterFacts.ollama_scan_errors_last|].
  split; [apply AdapterFacts.claude_stream_errors_last|].
  split.
  - intros Hc Hf. unfold ollama_stream. rewrite Hc.
    apply AdapterFacts.ollama_scan_fails; exact Hf.
  - apply AdapterFacts.claude_stream_read_error.
Qed.

(** C9: at the backend's done marker ([{"done": true}] for Ollama,
    [data: [DONE]] for Claude) the trailing line buffer is flushed through
    the parser once: the events after those of the complete lines are
    exactly the item it yields, if any ([flush_events] has at most one
    element), and then the channel is closed (for Claude, after the error
    event of a failed read, if any). *)
Theorem done_marker_flushes_trailing_line : forall ou cu run,
  (forall p l rest cs resp,
     body_lines run = p ++ l :: rest ->
     map ou p = map Some cs ->
     forallb (fun ch => negb (chunk_done ch)) cs = true ->
     ctx_err_at (cancel_at run) (List.length p) = false ->
     ou l = Some {| chunk_response := resp; chunk_done := true |} ->
     ollama_stream ou run =
       let (b, evs) := accumulate_all [] (map chunk_response cs ++ [resp]) in
       evs ++ flush_events b)
  /\ (forall p rest,
     body_lines run = p ++ runes "data: [DONE]" :: rest ->
     forallb (fun l => negb (is_done_line l)) p = true ->
     ctx_err_at (cancel_at run) (List.length p) = false ->
     claude_stream cu run =
       let (b, evs) := accumulate_all [] (claude_deltas cu p) in
       evs ++ flush_events b ++
       (if read_err run && negb (ctx_err_at (cancel_at run) (S (List.length p)))
        then [EvErr err_read_claude_stream] else [])).
Proof.
  intros ou cu run. split.
  - intros p l rest cs resp Hb Hm Hd Hc Hl.
    unfold ollama_stream. rewrite Hb.
    rewrite (AdapterFacts.ollama_scan_prefix ou _ _ p cs (l :: rest) 0 [] Hm Hd Hc).
    rewrite AdapterFacts.accumulate_all_snoc.
    destruct (accumulate_all [] (map chunk_response cs)) as [b1 e1].
    cbn [ollama_scan Nat.add]. rewrite Hc, Hl. cbn [chunk_response chunk_done].
    destruct (accumulate b1 resp) as [b2 e2]. rewrite app_assoc. reflexivity.
  - intros p rest Hb Hd Hc.
    rewrite AdapterFacts.claude_stream_shape, Hb.
    rewrite (AdapterFacts.claude_scan_prefix cu _ p _ 0 [] Hd Hc).
    destruct (accumulate_all [] (claude_deltas cu p)) as [b evs].
    cbn [claude_scan Nat.add]. rewrite Hc.
    change (negb (HasPrefix (runes "data: [DONE]") (runes "data: "))) with false.
    change (text_eqb (skipn 6 (runes "data: [DONE]")) (runes "[DONE]")) with true.
    cbv iota beta. rewrite app_nil_r. reflexivity.
Qed.

Lemma adapters_single_terminal_error_witness :
  ends_with_one_err (ollama_stream demo_ollama_unmarshal ollama_broken_run) /\
  ends_with_one_err (claude_stream demo_claude_unmarshal claude_read_error_run).
Proof.
  split.
  - apply (proj1 (proj2 (proj2 (adapters_single_terminal_error
             demo_ollama_unmarshal demo_claude_unmarshal ollama_broken_run))));
      vm_compute; reflexivity.
  - apply (proj2 (proj2 (proj2 (adapters_single_terminal_error
             demo_ollama_unmarshal demo_claude_unmarshal claude_read_error_run))));
      vm_compute; reflexivity.
Defined.

Lemma done_marker_flushes_trailing_line_witness :
  ollama_stream demo_ollama_unmarshal ollama_done_run =
    (let (b, evs) := accumulate_all []
                       [runes "Milk | 2 l"; [newline]; runes "Butter | 1"; []] in
     evs ++ flush_events b)
  /\ claude_stream demo_claude_unmarshal claude_done_run =
    (let (b, evs) := accumulate_all [] (claude_deltas demo_claude_unmarshal
                                          claude_lines_before_done) in
     evs ++ flush_events b ++ []).
Proof.
  split.
  - apply (proj1 (done_marker_flushes_trailing_line demo_ollama_unmarshal
             demo_claude_unmarshal ollama_done_run)
             ollama_chunks_done (ollama_line "{'response':'','done':true}") []
             [ {| chunk_response := runes "Milk | 2 l"; chunk_done := false |};
               {| chunk_response := [newline]; chunk_done := false |};
               {| chunk_response := runes "Butter | 1"; chunk_done := false |} ]
             []); vm_compute; reflexivity.
  - apply (proj2 (done_marker_flushes_trailing_line demo_ollama_unmarshal
             demo_claude_unmarshal claude_done_run)
             claude_lines_before_done []); vm_compute; reflexivity.
Defined.

(* ================================================================= *)
(** ** The orchestrator *)

Module ServiceFacts.

Lemma remove_notin (k : nat) (l : list nat) :
  ~ In k l -> remove Nat.eq_dec k l = l.
Proof.
  induction l as [|x l IH]; intros Hn; cbn; [reflexivity|].
  destruct (Nat.eq_dec k x) as [->|Hne].
  - exfalso. apply Hn. left. reflexivity.
  - f_equal. apply IH. intros Hi. apply Hn. right. exact Hi.
Qed.

Lemma remove_fresh_snoc (k : nat) (l : list nat) :
  ~ In k l -> remove Nat.eq_dec k (l ++ [k]) = l.
Proof.
  intros Hn. rewrite remove_app, remove_notin by exact Hn.
  cbn. destruct (Nat.eq_dec k k) as [_|C]; [|contradiction].
  apply app_nil_r.
Qed.

Lemma forallb_lt_notin (n : nat) (l : list nat) :
  forallb (fun k => k <? n) l = true -> ~ In n l.
Proof.
  intros H Hi. rewrite forallb_forall in H. specialize (H n Hi).
  apply Nat.ltb_lt in H. lia.
Qed.

Lemma filter_fresh_snoc (ps : list Photo) (p : Photo) :
  forallb (fun q => photo_ID q <? photo_ID p) ps = true ->
  filter (fun q => negb (photo_ID q =? photo_ID p)) (ps ++ [p]) = ps.
Proof.
  induction ps as [|q ps IH]; cbn; intros H.
  - rewrite Nat.eqb_refl. reflexivity.
  - apply andb_true_iff in H as [Hq H].
    apply Nat.ltb_lt in Hq.
    replace (photo_ID q =? photo_ID p) with false by (symmetry; apply Nat.eqb_neq; lia).
    cbn. f_equal. apply IH. exact H.
Qed.

Lemma filter_fresh_snoc' (ps : list Photo) (p : Photo) (n : nat) :
  photo_ID p = n ->
  forallb (fun q => photo_ID q <? n) ps = true ->
  filter (fun q => negb (photo_ID q =? n)) (ps ++ [p]) = ps.
Proof. intros <-. apply filter_fresh_snoc. Qed.

Lemma incl_remove_fresh (k : nat) (l : list nat) :
  ~ In k l -> incl l (remove Nat.eq_dec k (l ++ [k])).
Proof.
  intros Hn. rewrite remove_fresh_snoc by exact Hn. apply incl_refl.
Qed.

Lemma incl_snoc {A} (l : list A) (x : A) : incl l (l ++ [x]).
Proof. apply incl_appl, incl_refl. Qed.

Lemma worker_ops (env : Env) (a : nat) (photo : Photo) :
  forall evs n st,
  let '(_, _, ops) := worker env a photo n evs st in
  forall o, In o ops -> o = OItemCreate.
Proof.
  induction evs as [|[d|e] evs IH]; intros n st; cbn; try tauto.
  destruct (item_create (env_item_create env n) st a (Some (photo_ID photo)) d)
    as [[it|] st1];
  specialize (IH (S n) st1);
  destruct (worker env a photo (S n) evs st1) as [[st2 out] ops];
  intros o [<-|Ho]; auto.
Qed.

Lemma existsb_no_delete (l : list Op) :
  (forall o, In o l -> o = OItemCreate) ->
  existsb is_delete_items l = false /\ existsb is_stream_accepted l = false /\
  filter is_delete_items l = [].
Proof.
  induction l as [|o l IH]; intros H; cbn; [tauto|].
  rewrite (H o (or_introl eq_refl)). cbn.
  apply IH. intros o' Ho'. apply H. right. exact Ho'.
Qed.

(** An occurrence of [ODeleteItems] in [l1 ++ l2] lies in [l1] when [l2]
    has none. *)
Lemma delete_in_prefix (l2 : list Op) :
  (forall o, In o l2 -> o = OItemCreate) ->
  forall pre l1 post, l1 ++ l2 = pre ++ ODeleteItems :: post ->
  exists post', l1 = pre ++ ODeleteItems :: post'.
Proof.
  intros H2. induction pre as [|x pre IH]; intros [|y l1] post Heq; cbn in Heq.
  - exfalso. assert (In ODeleteItems l2) as Hi by (rewrite Heq; left; reflexivity).
    specialize (H2 _ Hi). discriminate.
  - injection Heq as -> _. exists l1. reflexivity.
  - exfalso. assert (In ODeleteItems l2) as Hi
      by (rewrite Heq; right; apply in_or_app; right; left; reflexivity).
    specialize (H2 _ Hi). discriminate.
  - injection Heq as -> Heq. destruct (IH l1 post Heq) as [post' ->].
    exists post'. reflexivity.
Qed.

Lemma delete_discipline_app (l1 l2 : list Op) :
  (forall o, In o l2 -> o = OItemCreate) ->
  delete_discipline l1 -> delete_discipline (l1 ++ l2).
Proof.
  intros H2 (H1c & H1e & H1p).
  destruct (existsb_no_delete l2 H2) as (Hd & Ha & Hf).
  split; [|split].
  - rewrite filter_app, Hf, app_nil_r. exact H1c.
  - rewrite !existsb_app, Hd, Ha, !orb_false_r. exact H1e.
  - intros pre post Heq.
    destruct (delete_in_prefix l2 H2 pre l1 post Heq) as [p' Hp'].
    exact (H1p pre p' Hp').
Qed.

Lemma begin_delete_discipline (env : Env) (st : Store) (a : nat) :
  let '(_, _, ops) := UploadPhotoStream env st a in delete_discipline ops.
Proof.
  unfold UploadPhotoStream, delete_discipline.
  destruct (env_area env); cbn.
  3: destruct (env_streaming env), (env_save_ok env), (env_photo_create env),
       (env_analyze_ok env), (env_delete_items_ok env); cbn.
  all: split; [lia | split; [reflexivity|]].
  all: intros pre post Heq.
  all: do 6 (try (destruct pre as [|? pre]; cbn in Heq;
                  [ try discriminate; try reflexivity
                  | injection Heq as <- Heq; try discriminate ])).
  all: try reflexivity; destruct pre; discriminate.
Qed.

End ServiceFacts.

(** C1 (counterexample).  Rolling back is best effort: when [AnalyzeStream]
    fails and deleting the new blob fails too, the blob stays in the store, so
    Scenario A is not left exactly as it was. *)
Lemma setup_failure_leaves_blob_behind :
  ~ (forall env st a,
       setup_fails env = true -> store_wf st = true ->
       let '(res, st', _) := UploadPhotoStream env st a in
       is_begin_err res = true /\ blobs st' = blobs st /\
       photos st' = photos st /\ items st' = items st).
Proof.
  intros H.
  specialize (H (env_with CreateOk false true false) store_A 1 eq_refl eq_refl).
  vm_compute in H. destruct H as (_ & Hb & _). discriminate.
Qed.

(** A photo create that fails after its INSERT committed leaves the new row:
    only the blob is deleted. *)
Example setup_failure_after_insert_keeps_row :
  let '(res, st', _) :=
    UploadPhotoStream (env_with CreateFailsAfterInsert true true true) store_A 1 in
  is_begin_err res = true /\ blobs st' = blobs store_A /\
  photos st' = photos store_A ++
                 [{| photo_ID := 3; photo_AreaID := 1; photo_StorageKey := 1 |}].
Proof. vm_compute. repeat split. Qed.

(** C1 (amended).  When [UploadPhotoStream] fails before the stream is accepted
    (area lookup error or no area, no streaming support, blob save failure,
    photo create failure, [AnalyzeStream] failure) it returns an error and no
    photo, leaves the items untouched, and removes no photo or blob that
    existed before the call.  When the compensating deletes succeed and a
    failed photo create left no row, blobs and photos are exactly as before. *)
Theorem setup_failure_preserves_prior_state :
  forall env st a,
  setup_fails env = true -> store_wf st = true ->
  let '(res, st', _) := UploadPhotoStream env st a in
  (exists e, res = BeginErr None e) /\ items st' = items st /\
  incl (photos st) (photos st') /\ incl (blobs st) (blobs st') /\
  (rollback_clean env = true -> blobs st' = blobs st /\ photos st' = photos st).
Proof.
  intros env st a Hs Hwf.
  unfold store_wf in Hwf. apply andb_true_iff in Hwf as [Hwf _].
  apply andb_true_iff in Hwf as [Hk Hp].
  unfold setup_fails, rollback_clean in *. unfold UploadPhotoStream.
  destruct (env_area env); cbn.
  3: destruct (env_streaming env), (env_save_ok env), (env_photo_create env),
       (env_analyze_ok env), (env_photo_delete_ok env), (env_blob_delete_ok env);
     cbn in Hs |- *; try discriminate.
  all: repeat match goal with
       | |- context [remove Nat.eq_dec ?k (?l ++ [?k])] =>
           rewrite (ServiceFacts.remove_fresh_snoc k l)
             by (apply ServiceFacts.forallb_lt_notin; exact Hk)
       | |- context [filter (fun q => negb (photo_ID q =? ?n)) (?l ++ [?p])] =>
           rewrite (ServiceFacts.filter_fresh_snoc' l p n)
             by (reflexivity || exact Hp)
       end.
  all: repeat split; try (eexists; reflexivity); try apply incl_refl;
       try apply ServiceFacts.incl_snoc; try (intros; discriminate).
Qed.

(** C2.  In every run of [UploadPhotoStream] and its worker, the old items
    are deleted at most once, they are deleted exactly when [AnalyzeStream]
    returned a channel, and the deletion comes after that call. *)
Theorem delete_old_items_once_after_stream_accepted :
  forall env st a evs,
  let '(_, _, ops) := upload_run env st a evs in
  List.length (filter is_delete_items ops) <= 1 /\
  existsb is_delete_items ops = existsb is_stream_accepted ops /\
  (forall pre post, ops = pre ++ ODeleteItems :: post ->
                    existsb is_stream_accepted pre = true).
Proof.
  intros env st a evs. unfold upload_run.
  pose proof (ServiceFacts.begin_delete_discipline env st a) as Hb.
  destruct (UploadPhotoStream env st a) as [[[ph e|ph] st1] ops1]; [exact Hb|].
  pose proof (ServiceFacts.worker_ops env a ph evs 0 st1) as Hw.
  destruct (worker env a ph 0 evs st1) as [[st2 out] ops2].
  exact (ServiceFacts.delete_discipline_app ops1 ops2 Hw Hb).
Qed.

(** C6.  For every sequence of adapter events, the worker creates one item
    row per item event before the first error, each linked to the area and
    the new photo and carrying the detected fields; it forwards, in order, the
    fields of the rows whose create succeeded, skips (without an error) those
    whose create failed, and forwards the adapter's error, if any, last. *)
Theorem worker_persists_and_forwards :
  forall env a photo evs n st,
  let '(st', out, ops) := worker env a photo n evs st in
  out = map EvItem (persisted (env_item_create env) n (items_before_err evs))
          ++ first_err evs /\
  (exists new, items st' = items st ++ new /\
     map row_fields new =
       map (fun d => (a, Some (photo_ID photo), Name d, Quantity d, Notes d))
           (inserted (env_item_create env) n (items_before_err evs))) /\
  ops = repeat OItemCreate (List.length (items_before_err evs)).
Proof.
  intros env a photo evs.
  induction evs as [|[d|e] evs IH]; intros n st; cbn.
  - split; [reflexivity | split; [exists []; split; [rewrite app_nil_r|]|]];
      reflexivity.
  - destruct (env_item_create env n) eqn:Eo; cbn;
      specialize (IH (S n));
      [ specialize (IH {| blobs := blobs st; photos := photos st;
                          items := items st ++ [{| item_ID := next_id st; item_AreaID := a;
                             item_PhotoID := Some (photo_ID photo); item_Name := Name d;
                             item_Quantity := Quantity d; item_Notes := Notes d |}];
                          next_key := next_key st; next_id := S (next_id st) |})
      | specialize (IH st)
      | specialize (IH {| blobs := blobs st; photos := photos st;
                          items := items st ++ [{| item_ID := next_id st; item_AreaID := a;
                             item_PhotoID := Some (photo_ID photo); item_Name := Name d;
                             item_Quantity := Quantity d; item_Notes := Notes d |}];
                          next_key := next_key st; next_id := S (next_id st) |}) ];
      destruct (worker env a photo (S n) evs _) as [[st2 out] ops];
      destruct IH as (Hout & (new & Hi & Hm) & Hops);
      rewrite Hout, Hops; cbn.
    all: split; [destruct d; reflexivity | split; [|reflexivity]].
    + eexists. split; [rewrite Hi; cbn [items]; rewrite <- app_assoc; reflexivity|].
      cbn. rewrite Hm. reflexivity.
    + exists new. split; [exact Hi | exact Hm].
    + eexists. split; [rewrite Hi; cbn [items]; rewrite <- app_assoc; reflexivity|].
      cbn. rewrite Hm. reflexivity.
  - split; [reflexivity | split; [exists []; split; [rewrite app_nil_r|]|]];
      reflexivity.
Qed.

Lemma setup_failure_preserves_prior_state_witness :
  let '(res, st', _) :=
    UploadPhotoStream (env_with CreateOk false true true) store_A 1 in
  (exists e, res = BeginErr None e) /\ items st' = items store_A /\
  incl (photos store_A) (photos st') /\ incl (blobs store_A) (blobs st') /\
  (rollback_clean (env_with CreateOk false true true) = true ->
   blobs st' = blobs store_A /\ photos st' = photos store_A).
Proof.
  exact (setup_failure_preserves_prior_state (env_with CreateOk false true true)
           store_A 1 eq_refl eq_refl).
Defined.

(** C7 (counterexample).  A request cancelled while the stream runs: the
    channel delivers one item and closes with no error, yet the handler
    returns at the cancellation check and never writes the done event. *)
Lemma cancelled_request_no_done :
  ~ (forall begin wfail recv,
       begin = Some recv ->
       (In ChDone (sse_body (handleStreamPhoto begin wfail)) <->
        forallb (fun p => is_item (snd p)) recv = true)).
Proof.
  intros H.
  destruct (H (Some [(true, EvItem milk)]) None [(true, EvItem milk)] eq_refl)
    as [_ H2].
  specialize (H2 eq_refl). cbn in H2. exact H2.
Qed.

Module HandlerFacts.

Lemma write_ok_mono (wfail : option nat) (j j' : nat) :
  write_ok wfail j = false -> j <= j' -> write_ok wfail j' = false.
Proof.
  destruct wfail as [k|]; cbn; [|discriminate].
  intros H Hle. apply Nat.ltb_ge in H. apply Nat.ltb_ge. lia.
Qed.

Lemma forward_done (wfail : option nat) :
  forall recv i,
  In ChDone (forward wfail i recv) <->
  received_cleanly recv = true /\
  write_ok wfail (i + 3 * List.length recv) = true.
Proof.
  unfold received_cleanly.
  induction recv as [|[c ev] recv IH]; intros i; cbn [forward forallb].
  - rewrite Nat.mul_0_r, Nat.add_0_r.
    destruct (write_ok wfail i); cbn; intuition discriminate.
  - destruct c; cbn [fst snd negb andb].
    { cbn. intuition discriminate. }
    destruct ev as [it|e]; cbn [is_item].
    2: { cbn. intuition discriminate. }
    destruct (write_ok wfail i) eqn:E0;
      [destruct (write_ok wfail (S i)) eqn:E1;
       [destruct (write_ok wfail (S (S i))) eqn:E2|]|].
    all: cbn [negb andb].
    + cbn [In List.length].
      replace (i + 3 * S (List.length recv))
        with (S (S (S i)) + 3 * List.length recv) by lia.
      rewrite <- IH. split.
      * intros [H|[H|[H|H]]]; try discriminate. exact H.
      * intros H. right. right. right. exact H.
    + rewrite (write_ok_mono _ _ _ E2) by (cbn [List.length]; lia).
      cbn. intuition discriminate.
    + rewrite (write_ok_mono _ _ _ E1) by (cbn [List.length]; lia).
      cbn. intuition discriminate.
    + rewrite (write_ok_mono _ _ _ E0) by (cbn [List.length]; lia).
      cbn. intuition discriminate.
Qed.

Lemma forward_json (wfail : option nat) :
  forall recv i n q no,
  In (ChJSON n q no) (forward wfail i recv) ->
  exists c it, In (c, EvItem it) recv /\
               n = Name it /\ q = Quantity it /\ no = Notes it.
Proof.
  induction recv as [|[c ev] recv IH]; intros i n q no H; cbn [forward] in H.
  - destruct (write_ok wfail i); cbn in H; [destruct H as [H|[]]|]; try discriminate.
    contradiction.
  - destruct c; [contradiction|].
    destruct ev as [it|e]; [|contradiction].
    assert (Hit : ChJSON n q no = ChJSON (Name it) (Quantity it) (Notes it) ->
                  exists c it', In (c, EvItem it') ((false, EvItem it) :: recv) /\
                    n = Name it' /\ q = Quantity it' /\ no = Notes it').
    { intros Heq. injection Heq as -> -> ->.
      exists false, it. split; [left; reflexivity | tauto]. }
    destruct (write_ok wfail i), (write_ok wfail (S i)), (write_ok wfail (S (S i)));
      cbn [negb] in H; cbn [In] in H;
      repeat match goal with
             | H : _ \/ _ |- _ => destruct H as [H|H]
             end;
      try contradiction; try discriminate; try (apply Hit; symmetry; exact H).
    destruct (IH _ _ _ _ H) as (c' & it' & Hin & Hrest).
    exists c', it'. split; [right; exact Hin | exact Hrest].
Qed.

End HandlerFacts.

(** C7 (amended).  After a successful [UploadPhotoStream], the handler writes
    the done event exactly when the channel closes having delivered no error,
    the request was not cancelled at any receipt, and every write succeeded;
    in particular an error event means no done event.  The only JSON written
    is the fields of received items: no error payload crosses to the client.
    A failed [UploadPhotoStream] is answered with HTTP 500 before any stream
    starts. *)
Theorem stream_done_iff_clean_completion :
  forall wfail recv,
  (In ChDone (sse_body (handleStreamPhoto (Some recv) wfail)) <->
   received_cleanly recv = true /\
   write_ok wfail (3 * List.length recv) = true) /\
  (forall pre c e post, recv = pre ++ (c, EvErr e) :: post ->
   ~ In ChDone (sse_body (handleStreamPhoto (Some recv) wfail))) /\
  (forall n q no, In (ChJSON n q no) (sse_body (handleStreamPhoto (Some recv) wfail)) ->
   exists c it, In (c, EvItem it) recv /\
                n = Name it /\ q = Quantity it /\ no = Notes it) /\
  handleStreamPhoto None wfail = RespHTTPError 500 "failed to process photo".
Proof.
  intros wfail recv. cbn [handleStreamPhoto sse_body].
  split; [|split; [|split]].
  - exact (HandlerFacts.forward_done wfail recv 0).
  - intros pre c e post -> H.
    apply HandlerFacts.forward_done in H as [H _].
    unfold received_cleanly in H. rewrite forallb_app in H.
    apply andb_true_iff in H as [_ H]. cbn in H. rewrite andb_false_r in H.
    discriminate.
  - intros n q no H. exact (HandlerFacts.forward_json wfail recv 0 n q no H).
  - reflexivity.
Qed.

Module PipelineFacts.

Lemma try_hrecv_sound (env : Env) (a : nat) (ph : Photo) (s s' : Pipe) :
  try_hrecv s = Some s' -> step env a ph s s'.
Proof.
  unfold try_hrecv. destruct (p_handler s) eqn:Eh, (p_out s) as [|ev rest] eqn:Eo;
    intros H; try discriminate.
  injection H as <-. apply HRecv; assumption.
Qed.

Lemma try_wsend_sound (env : Env) (a : nat) (ph : Photo) (s s' : Pipe) :
  try_wsend s = Some s' -> step env a ph s s'.
Proof.
  unfold try_wsend. destruct (p_pending s) as [[ev last]|] eqn:Ep; [|discriminate].
  destruct (List.length (p_out s) <? out_cap) eqn:El; intros H; [|discriminate].
  injection H as <-. apply WSend; [exact Ep | apply Nat.ltb_lt; exact El].
Qed.

Lemma try_wrecv_sound (env : Env) (a : nat) (ph : Photo) (s s' : Pipe) :
  try_wrecv env a ph s = Some s' -> step env a ph s s'.
Proof.
  unfold try_wrecv. destruct (p_worker_done s) eqn:Ed; [discriminate|].
  destruct (p_pending s) eqn:Ep; [discriminate|].
  destruct (p_src s) as [|[d|e] rest] eqn:Es; intros H; injection H as <-.
  - apply WEnd; assumption.
  - apply WRecvItem; assumption.
  - apply WRecvErr; assumption.
Qed.

Lemma try_hclose_sound (env : Env) (a : nat) (ph : Photo) (s s' : Pipe) :
  try_hclose s = Some s' -> step env a ph s s'.
Proof.
  unfold try_hclose.
  destruct (p_handler s) eqn:Eh, (p_out s) eqn:Eo, (p_worker_done s) eqn:Ed;
    intros H; try discriminate.
  injection H as <-. apply HClose; assumption.
Qed.

Lemma sched_sound (env : Env) (a : nat) (ph : Photo) (s s' : Pipe) :
  sched env a ph s = Some s' -> step env a ph s s'.
Proof.
  unfold sched.
  destruct (try_hrecv s) eqn:E1; [intros H; injection H as <-; eapply try_hrecv_sound; exact E1|].
  destruct (try_wsend s) eqn:E2; [intros H; injection H as <-; eapply try_wsend_sound; exact E2|].
  destruct (try_wrecv env a ph s) eqn:E3; [intros H; injection H as <-; eapply try_wrecv_sound; exact E3|].
  apply try_hclose_sound.
Qed.

Lemma sched_none_stuck (env : Env) (a : nat) (ph : Photo) (s : Pipe) :
  sched env a ph s = None -> p_cancelled s = true ->
  forall s', ~ step env a ph s s'.
Proof.
  intros Hn Hc s' Hs. unfold sched, try_hrecv, try_wsend, try_wrecv, try_hclose in Hn.
  destruct Hs as [s d rest Hd Hp Hsrc | s e rest Hd Hp Hsrc | s Hd Hp Hsrc
                 | s ev last Hp Hl | s ev rest Hh Ho | s Hh Ho Hd | s Hc'].
  - rewrite Hd, Hp, Hsrc in Hn.
    destruct (p_handler s), (p_out s); discriminate.
  - rewrite Hd, Hp, Hsrc in Hn.
    destruct (p_handler s), (p_out s); discriminate.
  - rewrite Hd, Hp, Hsrc in Hn.
    destruct (p_handler s), (p_out s); discriminate.
  - rewrite Hp in Hn. apply Nat.ltb_lt in Hl. rewrite Hl in Hn.
    destruct (p_handler s), (p_out s); discriminate.
  - rewrite Hh, Ho in Hn. discriminate.
  - rewrite Hh, Ho, Hd in Hn.
    destruct (p_pending s) as [[? ?]|]; [destruct (_ <? _)|]; discriminate.
  - congruence.
Qed.

Lemma run_star (env : Env) (a : nat) (ph : Photo) :
  forall n s, star env a ph s (run env a ph n s).
Proof.
  induction n as [|n IH]; intros s; cbn; [apply star_refl|].
  destruct (sched env a ph s) as [s'|] eqn:E; [|apply star_refl].
  eapply star_step; [apply sched_sound; exact E | apply IH].
Qed.

Lemma cancelled_inv_step (s s' : Pipe) :
  cancelled_inv s -> step env_ok 1 photo_A s s' -> cancelled_inv s'.
Proof.
  intros (Hc & Hsrc & Hlast & Hcount & Hcap & Hact & Hrec) Hs.
  destruct Hs as [s d rest Hd Hp Hsrc' | s e rest Hd Hp Hsrc' | s Hd Hp Hsrc'
                 | s ev last Hp Hl | s ev rest Hh Ho | s Hh Ho Hd | s Hc'].
  - unfold w_item, cancelled_inv, pend in *. cbn.
    rewrite Hsrc' in Hsrc. cbn in Hsrc. rewrite Hp in Hcount.
    rewrite length_app. cbn [List.length].
    repeat split; try assumption; try lia.
    intros ev last H. injection H as _ <-. reflexivity.
  - rewrite Hsrc' in Hsrc. discriminate.
  - unfold w_end, cancelled_inv, pend in *. cbn.
    rewrite Hp in Hcount. repeat split; try assumption; try discriminate.
  - unfold w_send, cancelled_inv, pend in *. cbn.
    rewrite Hp in Hcount. rewrite length_app. cbn [List.length].
    unfold out_cap in *. repeat split; try assumption; try discriminate; lia.
  - unfold h_recv, cancelled_inv, pend in *. cbn. rewrite Hc. cbn.
    rewrite Ho in Hcount, Hcap. cbn [List.length] in Hcount, Hcap.
    specialize (Hact Hh).
    repeat split; try assumption; try discriminate; try lia.
  - unfold h_close, cancelled_inv, pend in *. cbn.
    repeat split; try assumption; try discriminate.
  - congruence.
Qed.

Lemma cancelled_inv_star (s s' : Pipe) :
  star env_ok 1 photo_A s s' -> cancelled_inv s -> cancelled_inv s'.
Proof.
  induction 1 as [s|s1 s2 s3 H12 H23 IH]; intros Hi; [exact Hi|].
  apply IH. exact (cancelled_inv_step s1 s2 Hi H12).
Qed.

Lemma cancelled_inv_start : cancelled_inv (pipe_start true).
Proof.
  unfold cancelled_inv, pend. vm_compute.
  repeat split; intros; try discriminate; lia.
Qed.

End PipelineFacts.

(** C8.  The worker does not run to completion once the request is
    cancelled.  In Scenario A with twenty detected items and the request
    cancelled as soon as [UploadPhotoStream] returns, the handler receives one
    event and returns; nobody drains [out] any more, and the worker blocks on
    [out <- ev] with the buffer full.  In every execution at most 18 items are
    ever persisted, and an execution reaches a state where no goroutine can
    move, with the worker not returned and two items never received.  Without
    the cancellation the same upload persists all twenty items and the
    worker returns. *)
Theorem cancelled_request_stalls_worker :
  (forall s, star env_ok 1 photo_A (pipe_start true) s ->
   List.length (items (p_store s)) <= 18) /\
  (exists s, star env_ok 1 photo_A (pipe_start true) s /\
   p_worker_done s = false /\ List.length (p_src s) = 2 /\
   forall s', ~ step env_ok 1 photo_A s s') /\
  (exists s, star env_ok 1 photo_A (pipe_start false) s /\
   p_worker_done s = true /\ List.length (items (p_store s)) = 20).
Proof.
  split; [|split].
  - intros s Hs.
    destruct (PipelineFacts.cancelled_inv_star _ _ Hs PipelineFacts.cancelled_inv_start)
      as (_ & _ & _ & Hcount & Hcap & _ & Hrec).
    unfold pend, out_cap in *.
    destruct (p_pending s); lia.
  - exists (run env_ok 1 photo_A 200 (pipe_start true)).
    split; [apply PipelineFacts.run_star|].
    split; [vm_compute; reflexivity|].
    split; [vm_compute; reflexivity|].
    apply PipelineFacts.sched_none_stuck; vm_compute; reflexivity.
  - exists (run env_ok 1 photo_A 200 (pipe_start false)).
    split; [apply PipelineFacts.run_star|].
    split; vm_compute; reflexivity.
Qed.

Lemma delete_old_items_once_after_stream_accepted_witness :
  let '(_, _, ops) := upload_run env_ok store_A 1 twenty_items in
  List.length (filter is_delete_items ops) <= 1 /\
  existsb is_delete_items ops = existsb is_stream_accepted ops /\
  (forall pre post, ops = pre ++ ODeleteItems :: post ->
                    existsb is_stream_accepted pre = true).
Proof.
  exact (delete_old_items_once_after_stream_accepted env_ok store_A 1 twenty_items).
Defined.

Lemma stream_done_iff_clean_completion_witness :
  ~ In ChDone (sse_body (handleStreamPhoto
                 (Some [(false, EvItem milk); (false, EvErr "read stream"%string)]) None)).
Proof.
  apply (proj1 (proj2 (stream_done_iff_clean_completion None
           [(false, EvItem milk); (false, EvErr "read stream"%string)]))
           [(false, EvItem milk)] false "read stream"%string []).
  reflexivity.
Defined.

Lemma cancelled_request_stalls_worker_witness :
  List.length (items (p_store (run env_ok 1 photo_A 200 (pipe_start true)))) <= 18.
Proof.
  apply (proj1 cancelled_request_stalls_worker).
  apply PipelineFacts.run_star.
Defined.

(* ================================================================= *)
(** ** Further properties of the parser and the adapters *)

Module MoreParserFacts.

Lemma TrimSpace_idem : forall s, TrimSpace (TrimSpace s) = TrimSpace s.
Proof.
  intro s. unfold TrimSpace at 2.
  rewrite ParserFacts.TrimSpace_TrimRight, ParserFacts.TrimSpace_TrimLeft. reflexivity.
Qed.

Lemma Contains_TrimSpace_gen : forall s c, IsSpace c = false ->
  Contains (TrimSpace s) c = Contains s c.
Proof.
  intros s c Hc. unfold TrimSpace.
  rewrite ParserFacts.Contains_TrimRight, ParserFacts.Contains_TrimLeft by exact Hc.
  reflexivity.
Qed.

Lemma Split_pieces_free : forall s c l, In l (Split s c) -> Contains l c = false.
Proof.
  induction s as [|x r IH]; intros c l Hin.
  - destruct Hin as [<-|[]]. reflexivity.
  - rewrite ParserFacts.Split_cons in Hin.
    destruct (x =? c)%N eqn:Ex.
    + destruct Hin as [<-|Hin]; [reflexivity|]. exact (IH c l Hin).
    + destruct (Split r c) as [|f fs] eqn:Es.
      * destruct Hin as [<-|[]]. cbn. rewrite N.eqb_sym, Ex. reflexivity.
      * destruct Hin as [<-|Hin].
        -- cbn. rewrite N.eqb_sym, Ex. cbn. apply (IH c f). rewrite Es. left. reflexivity.
        -- apply (IH c l). rewrite Es. right. exact Hin.
Qed.

Lemma nth_Split_free : forall i s c, Contains (nth i (Split s c) []) c = false.
Proof.
  intros i s c. destruct (Nat.lt_ge_cases i (List.length (Split s c))) as [H|H].
  - apply (Split_pieces_free s c). apply nth_In. exact H.
  - rewrite nth_overflow by exact H. reflexivity.
Qed.

Lemma field_trimmed : forall i L, TrimSpace (field i L) = field i L.
Proof. intros i L. unfold field. apply TrimSpace_idem. Qed.

Lemma field_no_pipe : forall i L, Contains (field i L) pipe = false.
Proof.
  intros i L. unfold field. rewrite Contains_TrimSpace_gen by reflexivity.
  apply nth_Split_free.
Qed.

Lemma Split_free : forall l c, Contains l c = false -> Split l c = [l].
Proof.
  induction l as [|x r IH]; intros c H; [reflexivity|].
  cbn in H. apply orb_false_iff in H as [Hx H].
  rewrite ParserFacts.Split_cons, N.eqb_sym, Hx, (IH c H). reflexivity.
Qed.

Lemma Split_app_sep_gen : forall a b c,
  Split (a ++ c :: b) c = Split a c ++ Split b c.
Proof.
  induction a as [|x a IH]; intros b c.
  - cbn. rewrite N.eqb_refl. reflexivity.
  - cbn [app]. rewrite !ParserFacts.Split_cons, IH.
    destruct (x =? c)%N; [reflexivity|].
    destruct (Split a c) as [|f fs] eqn:E.
    + exfalso. exact (ParserFacts.Split_not_nil a c E).
    + reflexivity.
Qed.

Lemma ParseResponse_lines : forall s,
  ParseResponse s = List.concat (map (fun l => option_list (ParseLine l)) (Split s newline)).
Proof. intro s. unfold ParseResponse. apply ParserFacts.parse_lines_acc. Qed.

Lemma ParseResponse_app_sep : forall a b,
  ParseResponse (a ++ newline :: b) = ParseResponse a ++ ParseResponse b.
Proof.
  intros a b. rewrite !ParseResponse_lines, Split_app_sep_gen, map_app, concat_app.
  reflexivity.
Qed.

Lemma ParseLine_TrimSpace : forall b, ParseLine (TrimSpace b) = ParseLine b.
Proof. intro b. unfold ParseLine. rewrite TrimSpace_idem. reflexivity. Qed.

Lemma ParseResponse_line : forall b, Contains b newline = false ->
  map EvItem (ParseResponse b) = flush_events b.
Proof.
  intros b H. rewrite ParseResponse_lines, (Split_free b newline H).
  unfold flush_events. rewrite ParseLine_TrimSpace. cbn.
  destruct (ParseLine b); reflexivity.
Qed.

Lemma accumulate_buf_free : forall resp buf, Contains buf newline = false ->
  Contains (fst (accumulate buf resp)) newline = false.
Proof.
  induction resp as [|c r IH]; intros buf H; [exact H|].
  cbn [accumulate]. destruct (c =? newline)%N eqn:Ec.
  - specialize (IH [] eq_refl). destruct (accumulate [] r). exact IH.
  - apply IH. unfold Contains in *. rewrite existsb_app.
    apply orb_false_iff. split; [exact H|]. cbn [existsb].
    rewrite orb_false_r, N.eqb_sym, Ec. reflexivity.
Qed.

Lemma accumulate_batch : forall resp buf t, Contains buf newline = false ->
  let (b, evs) := accumulate buf resp in
  evs ++ map EvItem (ParseResponse (b ++ t)) = map EvItem (ParseResponse (buf ++ resp ++ t)).
Proof.
  induction resp as [|c r IH]; intros buf t H; [reflexivity|].
  cbn [accumulate]. destruct (c =? newline)%N eqn:Ec.
  - apply N.eqb_eq in Ec. subst c.
    specialize (IH [] t eq_refl). destruct (accumulate [] r) as [b evs'].
    cbn [app] in IH. rewrite <- app_assoc, IH.
    cbn [app]. rewrite ParseResponse_app_sep, map_app. f_equal.
    rewrite (ParseResponse_line buf H). unfold flush_events. reflexivity.
  - specialize (IH (buf ++ [c]) t).
    destruct (accumulate (buf ++ [c]) r) as [b evs'].
    rewrite IH.
    + rewrite <- app_assoc. reflexivity.
    + unfold Contains in *. rewrite existsb_app.
      apply orb_false_iff. split; [exact H|]. cbn [existsb].
      rewrite orb_false_r, N.eqb_sym, Ec. reflexivity.
Qed.

Lemma accumulate_all_batch : forall rs buf t, Contains buf newline = false ->
  let (b, evs) := accumulate_all buf rs in
  evs ++ map EvItem (ParseResponse (b ++ t)) =
  map EvItem (ParseResponse (buf ++ List.concat rs ++ t)).
Proof.
  induction rs as [|r rs IH]; intros buf t H; [reflexivity|].
  cbn [accumulate_all List.concat].
  pose proof (accumulate_batch r buf (List.concat rs ++ t) H) as Ha.
  pose proof (accumulate_buf_free r buf H) as Hf.
  destruct (accumulate buf r) as [b1 e1]. cbn [fst] in Hf.
  specialize (IH b1 t Hf). destruct (accumulate_all b1 rs) as [b2 e2].
  rewrite <- app_assoc, IH, Ha, <- app_assoc. reflexivity.
Qed.

(** Feeding texts to the line loop and flushing the buffer at the end gives
    the items of the whole text, as [ParseResponse] finds them. *)
Lemma accumulate_all_flush : forall rs,
  let (b, evs) := accumulate_all [] rs in
  evs ++ flush_events b = map EvItem (ParseResponse (List.concat rs)).
Proof.
  intro rs. pose proof (accumulate_all_batch rs [] [] eq_refl) as H.
  assert (Hf : forall rs' buf, Contains buf newline = false ->
            Contains (fst (accumulate_all buf rs')) newline = false).
  { induction rs' as [|r rs' IH]; intros buf Hb; [exact Hb|].
    cbn [accumulate_all]. pose proof (accumulate_buf_free r buf Hb) as H1.
    destruct (accumulate buf r) as [b1 e1]. specialize (IH b1 H1).
    destruct (accumulate_all b1 rs') as [b2 e2]. exact IH. }
  specialize (Hf rs [] eq_refl).
  destruct (accumulate_all [] rs) as [b evs]. cbn [fst] in Hf.
  rewrite app_nil_r in H. cbn [app] in H. rewrite app_nil_r in H.
  rewrite <- H, (ParseResponse_line b Hf). reflexivity.
Qed.

Lemma accumulate_app : forall r1 r2 buf,
  accumulate buf (r1 ++ r2) =
  let (b1, e1) := accumulate buf r1 in
  let (b2, e2) := accumulate b1 r2 in (b2, e1 ++ e2).
Proof.
  induction r1 as [|c r1 IH]; intros r2 buf; cbn [app accumulate].
  - destruct (accumulate buf r2); reflexivity.
  - destruct (c =? newline)%N.
    + rewrite IH. destruct (accumulate [] r1) as [b1 e1].
      destruct (accumulate b1 r2) as [b2 e2]. rewrite app_assoc. reflexivity.
    + apply IH.
Qed.

Lemma accumulate_all_concat : forall rs buf,
  accumulate_all buf rs = accumulate buf (List.concat rs).
Proof.
  induction rs as [|r rs IH]; intro buf; [reflexivity|].
  cbn [accumulate_all List.concat]. rewrite accumulate_app.
  destruct (accumulate buf r) as [b1 e1]. rewrite IH. reflexivity.
Qed.

Lemma accumulate_free : forall resp buf, Contains resp newline = false ->
  accumulate buf resp = (buf ++ resp, []).
Proof.
  induction resp as [|c r IH]; intros buf H; cbn [accumulate].
  - rewrite app_nil_r. reflexivity.
  - unfold Contains in H. cbn [existsb] in H. apply orb_false_iff in H as [Hc H].
    rewrite N.eqb_sym, Hc, IH by exact H. rewrite <- app_assoc. reflexivity.
Qed.

Lemma accumulate_tail : forall full tail buf, Contains tail newline = false ->
  fst (accumulate buf (full ++ newline :: tail)) = tail.
Proof.
  induction full as [|c f IH]; intros tail buf H; cbn [app accumulate].
  - rewrite N.eqb_refl. rewrite accumulate_free by exact H. reflexivity.
  - destruct (c =? newline)%N.
    + specialize (IH tail [] H). destruct (accumulate [] (f ++ newline :: tail)).
      exact IH.
    + apply IH. exact H.
Qed.

End MoreParserFacts.

(** Every item [ParseLine] returns has a non-empty name, and each of its three
    fields is already trimmed and holds no ['|']. *)
Theorem ParseLine_item_shape : forall L it, ParseLine L = Some it ->
  Name it <> [] /\
  TrimSpace (Name it) = Name it /\ TrimSpace (Quantity it) = Quantity it /\
  TrimSpace (Notes it) = Notes it /\
  Contains (Name it) pipe = false /\ Contains (Quantity it) pipe = false /\
  Contains (Notes it) pipe = false.
Proof.
  intros L it H. rewrite ParserFacts.ParseLine_fields in H.
  destruct (is_empty (TrimSpace L) || negb (Contains L pipe) || is_empty (field 0 L))
    eqn:E; [discriminate|].
  injection H as <-. cbn [Name Quantity Notes].
  apply orb_false_iff in E as [_ E0].
  repeat split; try apply MoreParserFacts.field_trimmed;
    try apply MoreParserFacts.field_no_pipe.
  intro Hn. rewrite Hn in E0. discriminate.
Qed.

Lemma ParseLine_item_shape_witness :
  ParseLine (runes " Milk | 2 l | open ") =
    Some {| Name := runes "Milk"; Quantity := runes "2 l"; Notes := runes "open" |}
  /\ runes "Milk" <> [] /\ TrimSpace (runes "Milk") = runes "Milk" /\
  TrimSpace (runes "2 l") = runes "2 l" /\ TrimSpace (runes "open") = runes "open" /\
  Contains (runes "Milk") pipe = false /\ Contains (runes "2 l") pipe = false /\
  Contains (runes "open") pipe = false.
Proof.
  assert (H : ParseLine (runes " Milk | 2 l | open ") =
    Some {| Name := runes "Milk"; Quantity := runes "2 l"; Notes := runes "open" |})
    by (vm_compute; reflexivity).
  split; [exact H|].
  exact (ParseLine_item_shape (runes " Milk | 2 l | open ") _ H).
Defined.

(** Parsing a text made of two parts joined by a newline gives the items of
    the first part followed by those of the second. *)
Theorem ParseResponse_newline_app : forall a b,
  ParseResponse (a ++ newline :: b) = ParseResponse a ++ ParseResponse b.
Proof. exact MoreParserFacts.ParseResponse_app_sep. Qed.

(** An Ollama stream whose chunks all decode, the last one carrying
    [done: true], and that is not cancelled before it, sends exactly the items
    [ParseResponse] finds in the concatenated responses, and no error. *)
Theorem ollama_stream_done_is_ParseResponse : forall u run p cs l ch rest,
  body_lines run = p ++ l :: rest ->
  map u p = map Some cs ->
  forallb (fun ch => negb (chunk_done ch)) cs = true ->
  u l = Some ch -> chunk_done ch = true ->
  ctx_err_at (cancel_at run) (List.length p) = false ->
  ollama_stream u run =
    map EvItem (ParseResponse (List.concat (map chunk_response (cs ++ [ch])))).
Proof.
  intros u run p cs l ch rest Hb Hm Hd Hl Hdone Hc.
  unfold ollama_stream. rewrite Hb.
  rewrite (AdapterFacts.ollama_scan_prefix u _ _ p cs (l :: rest) 0 [] Hm Hd Hc).
  pose proof (MoreParserFacts.accumulate_all_flush (map chunk_response (cs ++ [ch]))) as F.
  rewrite map_app in F. cbn [map] in F. rewrite AdapterFacts.accumulate_all_snoc in F.
  destruct (accumulate_all [] (map chunk_response cs)) as [b evs].
  cbn [Nat.add ollama_scan]. rewrite Hc, Hl.
  destruct (accumulate b (chunk_response ch)) as [b2 e2]. rewrite Hdone.
  rewrite map_app. cbn [map]. rewrite <- F, app_assoc. reflexivity.
Qed.

Lemma ollama_stream_done_is_ParseResponse_witness :
  ollama_stream demo_ollama_unmarshal ollama_done_run =
    map EvItem (ParseResponse (List.concat (map chunk_response
      [ {| chunk_response := runes "Milk | 2 l"; chunk_done := false |};
        {| chunk_response := [newline]; chunk_done := false |};
        {| chunk_response := runes "Butter | 1"; chunk_done := false |};
        {| chunk_response := []; chunk_done := true |} ]))).
Proof.
  apply (ollama_stream_done_is_ParseResponse demo_ollama_unmarshal ollama_done_run
           ollama_chunks_done
           [ {| chunk_response := runes "Milk | 2 l"; chunk_done := false |};
             {| chunk_response := [newline]; chunk_done := false |};
             {| chunk_response := runes "Butter | 1"; chunk_done := false |} ]
           (ollama_line "{'response':'','done':true}")
           {| chunk_response := []; chunk_done := true |} []);
    vm_compute; reflexivity.
Defined.

(** An Ollama stream that ends without a [done: true] chunk (all chunks
    decode, not cancelled) never flushes its line buffer: it sends the items
    of the text up to the last newline, and drops the unterminated last line;
    a read error then adds its error event. *)
Theorem ollama_stream_without_done_drops_last_line : forall u run cs full tail,
  map u (body_lines run) = map Some cs ->
  forallb (fun ch => negb (chunk_done ch)) cs = true ->
  ctx_err_at (cancel_at run) (List.length (body_lines run)) = false ->
  List.concat (map chunk_response cs) = full ++ newline :: tail ->
  Contains tail newline = false ->
  ollama_stream u run =
    map EvItem (ParseResponse full) ++
    (if read_err run then [EvErr err_read_stream] else []).
Proof.
  intros u run cs full tail Hm Hd Hc Hcat Ht.
  unfold ollama_stream.
  rewrite <- (app_nil_r (body_lines run)) at 1.
  rewrite (AdapterFacts.ollama_scan_prefix u _ _ (body_lines run) cs [] 0 [] Hm Hd Hc).
  rewrite MoreParserFacts.accumulate_all_concat, Hcat.
  pose proof (MoreParserFacts.accumulate_tail full tail [] Ht) as Hb.
  pose proof (MoreParserFacts.accumulate_batch (full ++ newline :: tail) [] [] eq_refl) as B.
  destruct (accumulate [] (full ++ newline :: tail)) as [b evs].
  cbn [fst] in Hb. subst b.
  cbn [Nat.add ollama_scan]. rewrite Hc. cbn [negb]. rewrite andb_true_r.
  rewrite !app_nil_r in B. cbn [app] in B.
  rewrite MoreParserFacts.ParseResponse_app_sep, map_app in B.
  apply app_inv_tail in B. rewrite B. reflexivity.
Qed.

Lemma ollama_stream_without_done_drops_last_line_witness :
  ollama_stream demo_ollama_unmarshal
    {| body_lines := ollama_chunks_done; read_err := false; cancel_at := None |} =
    map EvItem (ParseResponse (runes "Milk | 2 l")) ++ [].
Proof.
  apply (ollama_stream_without_done_drops_last_line demo_ollama_unmarshal
           {| body_lines := ollama_chunks_done; read_err := false; cancel_at := None |}
           [ {| chunk_response := runes "Milk | 2 l"; chunk_done := false |};
             {| chunk_response := [newline]; chunk_done := false |};
             {| chunk_response := runes "Butter | 1"; chunk_done := false |} ]
           (runes "Milk | 2 l") (runes "Butter | 1"));
    vm_compute; reflexivity.
Defined.

(** A Claude stream without a [data: [DONE]] line that is not cancelled sends
    exactly the items [ParseResponse] finds in the concatenated text deltas
    (the unterminated last line included), then the read error if the body
    failed. *)
Theorem claude_stream_is_ParseResponse : forall u run,
  forallb (fun l => negb (is_done_line l)) (body_lines run) = true ->
  ctx_err_at (cancel_at run) (List.length (body_lines run)) = false ->
  claude_stream u run =
    map EvItem (ParseResponse (List.concat (claude_deltas u (body_lines run)))) ++
    (if read_err run then [EvErr err_read_claude_stream] else []).
Proof.
  intros u run Hd Hc.
  rewrite AdapterFacts.claude_stream_shape.
  pose proof (AdapterFacts.claude_scan_prefix u (cancel_at run) (body_lines run) [] 0 []
                Hd Hc) as P.
  rewrite app_nil_r in P. rewrite P.
  pose proof (MoreParserFacts.accumulate_all_flush (claude_deltas u (body_lines run))) as F.
  destruct (accumulate_all [] (claude_deltas u (body_lines run))) as [b evs].
  cbn [claude_scan Nat.add]. rewrite Hc. cbn [negb]. rewrite andb_true_r.
  rewrite app_nil_r, <- F, app_assoc. reflexivity.
Qed.

Lemma claude_stream_is_ParseResponse_witness :
  claude_stream demo_claude_unmarshal
    {| body_lines := claude_lines_before_done; read_err := true; cancel_at := None |} =
    map EvItem (ParseResponse (List.concat (claude_deltas demo_claude_unmarshal
                                              claude_lines_before_done))) ++
    [EvErr err_read_claude_stream].
Proof.
  apply (claude_stream_is_ParseResponse demo_claude_unmarshal
           {| body_lines := claude_lines_before_done; read_err := true; cancel_at := None |});
    vm_compute; reflexivity.
Defined.

(** A request cancelled before the first line is scanned gets no event at all
    from either adapter: no item, and no error either, even if the body
    failed. *)
Theorem streams_cancelled_at_start_are_empty : forall ou cu run,
  cancel_at run = Some 0 ->
  ollama_stream ou run = [] /\ claude_stream cu run = [].
Proof.
  intros ou cu run Hc. unfold ollama_stream, claude_stream. rewrite Hc.
  destruct (body_lines run) as [|l rest]; cbn.
  - rewrite andb_false_r. split; reflexivity.
  - split; reflexivity.
Qed.

Lemma streams_cancelled_at_start_are_empty_witness :
  ollama_stream demo_ollama_unmarshal
    {| body_lines := body_lines ollama_done_run; read_err := true; cancel_at := Some 0 |} = []
  /\ claude_stream demo_claude_unmarshal
    {| body_lines := body_lines ollama_done_run; read_err := true; cancel_at := Some 0 |} = [].
Proof.
  apply streams_cancelled_at_start_are_empty. reflexivity.
Defined.

(* ================================================================= *)
(** ** Further properties of the service *)

Module MoreServiceFacts.

Lemma create_items_spec : forall env a pid ds n st,
  let (its, st') := create_items env a pid n ds st in
  (exists new, items st' = items st ++ new /\
     map row_fields new =
       map (fun d => (a, Some pid, Name d, Quantity d, Notes d))
           (inserted (env_item_create env) n ds)) /\
  map row_fields its =
    map (fun d => (a, Some pid, Name d, Quantity d, Notes d))
        (persisted (env_item_create env) n ds) /\
  photos st' = photos st /\ blobs st' = blobs st.
Proof.
  intros env a pid ds. induction ds as [|d ds IH]; intros n st; cbn.
  - split; [exists []; split; [rewrite app_nil_r|]|]; repeat split; reflexivity.
  - destruct (env_item_create env n) eqn:Eo; cbn.
    + specialize (IH (S n) {| blobs := blobs st; photos := photos st;
          items := items st ++ [{| item_ID := next_id st; item_AreaID := a;
             item_PhotoID := Some pid; item_Name := Name d;
             item_Quantity := Quantity d; item_Notes := Notes d |}];
          next_key := next_key st; next_id := S (next_id st) |}).
      destruct (create_items env a pid (S n) ds _) as [its st2].
      destruct IH as ((new & Hi & Hm) & Hits & Hp & Hb). cbn in Hp, Hb.
      split; [|split; [cbn; rewrite Hits; reflexivity | split; assumption]].
      eexists. split; [rewrite Hi; cbn [items]; rewrite <- app_assoc; reflexivity|].
      cbn. rewrite Hm. reflexivity.
    + specialize (IH (S n) st). destruct (create_items env a pid (S n) ds st) as [its st2].
      exact IH.
    + specialize (IH (S n) {| blobs := blobs st; photos := photos st;
          items := items st ++ [{| item_ID := next_id st; item_AreaID := a;
             item_PhotoID := Some pid; item_Name := Name d;
             item_Quantity := Quantity d; item_Notes := Notes d |}];
          next_key := next_key st; next_id := S (next_id st) |}).
      destruct (create_items env a pid (S n) ds _) as [its st2].
      destruct IH as ((new & Hi & Hm) & Hits & Hp & Hb). cbn in Hp, Hb.
      split; [|split; [exact Hits | split; assumption]].
      eexists. split; [rewrite Hi; cbn [items]; rewrite <- app_assoc; reflexivity|].
      cbn. rewrite Hm. reflexivity.
Qed.

Lemma new_rows_in_area : forall a pid ds new,
  map row_fields new = map (fun d => (a, Some pid, Name d, Quantity d, Notes d)) ds ->
  forallb (fun it => item_AreaID it =? a) new = true.
Proof.
  intros a pid ds. induction ds as [|d ds IH]; intros [|it new] Hm;
    try discriminate; [reflexivity|].
  cbn in Hm. injection Hm as H1 _ _ _ _ H2. cbn. rewrite H1, Nat.eqb_refl. cbn.
  apply IH. exact H2.
Qed.

Lemma filter_true_all : forall {A} (f : A -> bool) l,
  forallb f l = true -> filter f l = l.
Proof. intros A f l H. apply forallb_filter_id. exact H. Qed.

Lemma filter_false_all : forall {A} (f : A -> bool) l,
  forallb f l = true -> filter (fun x => negb (f x)) l = [].
Proof.
  intros A f l. induction l as [|x l IH]; intros H; [reflexivity|].
  cbn in H. apply andb_true_iff in H as [Hx H]. cbn. rewrite Hx. cbn. apply IH. exact H.
Qed.

Lemma filter_complement : forall {A} (f : A -> bool) l,
  filter f (filter (fun x => negb (f x)) l) = [].
Proof.
  intros A f l. induction l as [|x l IH]; [reflexivity|].
  cbn. destruct (f x) eqn:E; cbn; [exact IH|]. rewrite E. exact IH.
Qed.

Lemma filter_idem : forall {A} (f : A -> bool) l,
  filter f (filter f l) = filter f l.
Proof.
  intros A f l. induction l as [|x l IH]; [reflexivity|].
  cbn. destruct (f x) eqn:E; cbn; [rewrite E, IH; reflexivity | exact IH].
Qed.

End MoreServiceFacts.

(** [UploadPhoto] writes nothing when the area lookup fails, the area does
    not exist, the vision analysis fails or the photo cannot be saved: it
    returns an error without a photo and leaves the store as it was. *)
Theorem UploadPhoto_early_failure_keeps_store : forall env analysis st areaID,
  env_area env <> LookupFound \/ analysis = None \/ env_save_ok env = false ->
  exists e, UploadPhoto env analysis st areaID = (UploadErr None e, st).
Proof.
  intros env analysis st areaID H. unfold UploadPhoto.
  destruct (env_area env); [eexists; reflexivity | eexists; reflexivity |].
  destruct analysis as [ds|]; [|eexists; reflexivity].
  destruct H as [H|[H|H]]; [congruence | discriminate |].
  rewrite H. eexists. reflexivity.
Qed.

Lemma UploadPhoto_early_failure_keeps_store_witness :
  exists e, UploadPhoto (env_with CreateOk true true true) None store_A 1 =
              (UploadErr None e, store_A).
Proof.
  apply (UploadPhoto_early_failure_keeps_store (env_with CreateOk true true true)
           None store_A 1).
  right. left. reflexivity.
Defined.

(** When [UploadPhoto] succeeds, the analysis succeeded, the new photo row
    belongs to the area and its file is stored; the area's items are then
    exactly the rows inserted for the detected items, in order, linked to the
    new photo (the old ones are gone); the returned items are the rows whose
    create succeeded; the items of other areas are untouched. *)
Theorem UploadPhoto_success_replaces_area_items :
  forall env analysis st areaID photo its st',
  UploadPhoto env analysis st areaID = (UploadOk photo its, st') ->
  exists ds, analysis = Some ds /\
  photo_AreaID photo = areaID /\ In photo (photos st') /\
  In (photo_StorageKey photo) (blobs st') /\
  map row_fields (filter (fun it => item_AreaID it =? areaID) (items st')) =
    map (fun d => (areaID, Some (photo_ID photo), Name d, Quantity d, Notes d))
        (inserted (env_item_create env) 0 ds) /\
  map row_fields its =
    map (fun d => (areaID, Some (photo_ID photo), Name d, Quantity d, Notes d))
        (persisted (env_item_create env) 0 ds) /\
  filter (fun it => negb (item_AreaID it =? areaID)) (items st') =
    filter (fun it => negb (item_AreaID it =? areaID)) (items st).
Proof.
  intros env analysis st areaID photo its st' H. unfold UploadPhoto in H.
  destruct (env_area env); try discriminate.
  destruct analysis as [ds|]; [|discriminate].
  destruct (env_save_ok env); cbn in H; [|discriminate].
  destruct (env_photo_create env); cbn in H; try discriminate.
  destruct (env_delete_items_ok env); cbn in H; [|discriminate].
  match type of H with context [create_items ?e ?a ?p 0 ds ?s] =>
    pose proof (MoreServiceFacts.create_items_spec e a p ds 0 s) as C;
    destruct (create_items e a p 0 ds s) as [its0 st4] end.
  injection H as <- <- <-.
  destruct C as ((new & Hi & Hm) & Hits & Hp & Hb).
  cbn [items] in Hi. cbn [photos] in Hp. cbn [blobs] in Hb.
  exists ds. split; [reflexivity|].
  cbn [photo_AreaID photo_ID photo_StorageKey]. rewrite Hp, Hb, Hi.
  pose proof (MoreServiceFacts.new_rows_in_area _ _ _ _ Hm) as Ha.
  split; [reflexivity|].
  split; [apply in_or_app; right; left; reflexivity|].
  split; [apply in_or_app; right; left; reflexivity|].
  rewrite !filter_app, MoreServiceFacts.filter_complement, MoreServiceFacts.filter_idem,
    (MoreServiceFacts.filter_true_all _ new Ha),
    (MoreServiceFacts.filter_false_all _ new Ha), app_nil_r.
  split; [exact Hm|]. split; [exact Hits | reflexivity].
Qed.

Lemma UploadPhoto_success_replaces_area_items_witness :
  exists photo its st',
    UploadPhoto (env_with CreateOk true true true)
      (Some [milk; {| Name := runes "Eggs"; Quantity := runes "12"; Notes := [] |}])
      store_A 1 = (UploadOk photo its, st') /\
  exists ds, Some [milk; {| Name := runes "Eggs"; Quantity := runes "12"; Notes := [] |}]
               = Some ds /\
  photo_AreaID photo = 1 /\ In photo (photos st') /\
  In (photo_StorageKey photo) (blobs st') /\
  map row_fields (filter (fun it => item_AreaID it =? 1) (items st')) =
    map (fun d => (1, Some (photo_ID photo), Name d, Quantity d, Notes d))
        (inserted (env_item_create (env_with CreateOk true true true)) 0 ds) /\
  map row_fields its =
    map (fun d => (1, Some (photo_ID photo), Name d, Quantity d, Notes d))
        (persisted (env_item_create (env_with CreateOk true true true)) 0 ds) /\
  filter (fun it => negb (item_AreaID it =? 1)) (items st') =
    filter (fun it => negb (item_AreaID it =? 1)) (items store_A).
Proof.
  do 3 eexists. split; [reflexivity|].
  apply (UploadPhoto_success_replaces_area_items (env_with CreateOk true true true)
           (Some [milk; {| Name := runes "Eggs"; Quantity := runes "12"; Notes := [] |}])
           store_A 1).
  reflexivity.
Defined.

(** Whenever [UploadPhoto] returns an error, the items table is as it was:
    old items are only deleted on the way to a successful upload. *)
Theorem UploadPhoto_error_keeps_items : forall env analysis st areaID ph e st',
  UploadPhoto env analysis st areaID = (UploadErr ph e, st') -> items st' = items st.
Proof.
  intros env analysis st areaID ph e st' H. unfold UploadPhoto in H.
  destruct (env_area env);
    [injection H as _ _ <-; reflexivity | injection H as _ _ <-; reflexivity |].
  destruct analysis as [ds|]; [|injection H as _ _ <-; reflexivity].
  destruct (env_save_ok env); cbn in H; [|injection H as _ _ <-; reflexivity].
  destruct (env_photo_create env), (env_blob_delete_ok env), (env_delete_items_ok env);
    cbn in H; try (injection H as _ _ <-; reflexivity);
    match type of H with context [create_items ?e ?a ?p 0 ds ?s] =>
      destruct (create_items e a p 0 ds s); discriminate end.
Qed.

Lemma UploadPhoto_error_keeps_items_witness :
  items (snd (UploadPhoto env_delete_items_fails (Some [milk]) store_A 1)) = items store_A.
Proof.
  apply (UploadPhoto_error_keeps_items env_delete_items_fails (Some [milk]) store_A 1
           (Some {| photo_ID := 3; photo_AreaID := 1; photo_StorageKey := 1 |})
           "failed to delete old items"%string).
  vm_compute. reflexivity.
Defined.

(** When [itemStore.DeleteByAreaID] fails, [UploadPhoto] returns the new
    photo with its error and rolls nothing back: the photo row and its file
    stay, next to the area's old items. *)
Theorem UploadPhoto_delete_items_failure_keeps_photo : forall env ds st areaID,
  env_area env = LookupFound -> env_save_ok env = true ->
  env_photo_create env = CreateOk -> env_delete_items_ok env = false ->
  exists photo st',
    UploadPhoto env (Some ds) st areaID =
      (UploadErr (Some photo) "failed to delete old items"%string, st') /\
    photo_AreaID photo = areaID /\
    photos st' = photos st ++ [photo] /\
    blobs st' = blobs st ++ [photo_StorageKey photo] /\
    items st' = items st.
Proof.
  intros env ds st areaID Ha Hs Hp Hd. unfold UploadPhoto.
  rewrite Ha, Hs, Hp. cbn. rewrite Hd. cbn.
  do 2 eexists. split; [reflexivity|]. cbn. repeat split; reflexivity.
Qed.

Lemma UploadPhoto_delete_items_failure_keeps_photo_witness :
  exists photo st',
    UploadPhoto env_delete_items_fails (Some [milk]) store_A 1 =
      (UploadErr (Some photo) "failed to delete old items"%string, st') /\
    photo_AreaID photo = 1 /\
    photos st' = photos store_A ++ [photo] /\
    blobs st' = blobs store_A ++ [photo_StorageKey photo] /\
    items st' = items store_A.
Proof.
  apply (UploadPhoto_delete_items_failure_keeps_photo env_delete_items_fails [milk]
           store_A 1); reflexivity.
Defined.

Module ItemStoreFacts.

Section Find.
Variable A : Type.
Variable f : A -> bool.







End Find.


End ItemStoreFacts.







Module DeletePhotoFacts.




End DeletePhotoFacts.





Module WebFacts.

Lemma allowedImageTypes_cases : forall m, allowedImageTypes m = true ->
  m = "image/jpeg"%string \/ m = "image/png"%string \/ m = "image/gif"%string.
Proof.
  intros m H. unfold allowedImageTypes in H.
  apply orb_true_iff in H as [H|H]; [apply orb_true_iff in H as [H|H]|].
  all: apply String.eqb_eq in H; subst; auto.
Qed.

Lemma RuneLen_bounds : forall r, 1 <= RuneLen r <= 4.
Proof.
  intro r. unfold RuneLen.
  destruct (r <? 128)%N; [lia|]. destruct (r <? 2048)%N; [lia|].
  destruct (r <? 65536)%N; lia.
Qed.

Lemma byte_len_bounds : forall s, List.length s <= byte_len s <= 4 * List.length s.
Proof.
  induction s as [|r s IH]; cbn [List.length byte_len fold_right]; [lia|].
  unfold byte_len in IH. pose proof (RuneLen_bounds r). lia.
Qed.

Lemma create_iff : forall form name,
  handleCreateArea true form = CACreated name <->
  name = TrimSpace form /\ name <> [] /\ byte_len name <= maxAreaNameLen.
Proof.
  intros form name. unfold handleCreateArea.
  destruct (TrimSpace form) as [|c cs] eqn:Et; cbn [is_empty].
  - split; [discriminate | intros (-> & H & _); exfalso; apply H; reflexivity].
  - destruct (maxAreaNameLen <? byte_len (c :: cs)) eqn:El.
    + split; [discriminate|]. intros (-> & _ & H). apply Nat.ltb_lt in El. lia.
    + apply Nat.ltb_ge in El. split.
      * intros H. injection H as <-. split; [reflexivity | split; [discriminate | exact El]].
      * intros (-> & _ & _). reflexivity.
Qed.

End WebFacts.

(** [allowedImageMIME] accepts only WebP, JPEG, PNG and GIF, and each type it
    accepts is one [normaliseMIME] passes on unchanged (never coerced to
    JPEG); a rejection comes with the empty type. *)
Theorem allowedImageMIME_accepted_types : forall DetectContentType data,
  let (m, ok) := allowedImageMIME DetectContentType data in
  if ok then
    In m ["image/webp"; "image/jpeg"; "image/png"; "image/gif"]%string /\
    normaliseMIME m = m
  else m = ""%string.
Proof.
  intros DetectContentType data. unfold allowedImageMIME.
  destruct (isWebP data); [split; [cbn; auto | reflexivity]|].
  destruct (allowedImageTypes (DetectContentType data)) eqn:E; [|reflexivity].
  apply WebFacts.allowedImageTypes_cases in E as [E|[E|E]]; rewrite E;
    (split; [cbn; tauto | reflexivity]).
Qed.


(** The length check counts bytes, not characters: a trimmed name of more
    than 200 characters is always refused as too long, whatever
    [CreateArea] would do. *)
Theorem handleCreateArea_long_name_refused : forall create_ok form,
  maxAreaNameLen < List.length (TrimSpace form) ->
  handleCreateArea create_ok form = CAHTTPError 400 "area name too long".
Proof.
  intros create_ok form H. unfold handleCreateArea.
  pose proof (WebFacts.byte_len_bounds (TrimSpace form)) as B.
  destruct (TrimSpace form) as [|c cs]; [cbn in H; unfold maxAreaNameLen in H; lia|].
  cbn [is_empty]. replace (maxAreaNameLen <? byte_len (c :: cs)) with true; [reflexivity|].
  symmetry. apply Nat.ltb_lt. lia.
Qed.

Lemma handleCreateArea_long_name_refused_witness :
  handleCreateArea true (repeat 97%N 201) = CAHTTPError 400 "area name too long".
Proof.
  apply handleCreateArea_long_name_refused. vm_compute. lia.
Defined.

(** A non-blank trimmed name of at most 50 characters is never too long
    (a rune takes at most 4 bytes): when [CreateArea] succeeds the area is
    created with that name. *)
Theorem handleCreateArea_short_name_created : forall form,
  TrimSpace form <> [] -> List.length (TrimSpace form) <= 50 ->
  handleCreateArea true form = CACreated (TrimSpace form).
Proof.
  intros form Hne Hl. apply WebFacts.create_iff.
  pose proof (WebFacts.byte_len_bounds (TrimSpace form)) as B.
  unfold maxAreaNameLen. split; [reflexivity | split; [exact Hne | lia]].
Qed.

Lemma handleCreateArea_short_name_created_witness :
  handleCreateArea true (runes "  Pantry ") = CACreated (TrimSpace (runes "  Pantry ")).
Proof.
  apply handleCreateArea_short_name_created; vm_compute; [discriminate | lia].
Defined.

Module UploadPathsFacts.

Lemma worker_create_items : forall env a photo ds n st,
  let (its, st') := create_items env a (photo_ID photo) n ds st in
  exists ops, worker env a photo n (map EvItem ds) st =
    (st', map (fun it => EvItem {| Name := item_Name it; Quantity := item_Quantity it;
                                   Notes := item_Notes it |}) its, ops).
Proof.
  intros env a photo ds. induction ds as [|d ds IH]; intros n st.
  - cbn. exists []. reflexivity.
  - cbn [map worker create_items].
    destruct (item_create (env_item_create env n) st a (Some (photo_ID photo)) d)
      as [[it|] st1].
    + specialize (IH (S n) st1).
      destruct (create_items env a (photo_ID photo) (S n) ds st1) as [its st2].
      destruct IH as [ops Hw]. rewrite Hw. eexists. reflexivity.
    + specialize (IH (S n) st1).
      destruct (create_items env a (photo_ID photo) (S n) ds st1) as [its st2].
      destruct IH as [ops Hw]. rewrite Hw. eexists. reflexivity.
Qed.

End UploadPathsFacts.

(** The batch and the streaming uploads agree: with an adapter that streams,
    when [UploadPhoto] succeeds on the detections [ds], [UploadPhotoStream]
    followed by its worker over the item events of [ds] ends in the same
    store and forwards the fields of exactly the items [UploadPhoto]
    returns. *)
Theorem UploadPhoto_agrees_with_stream : forall env ds st areaID photo its st',
  env_streaming env = true -> env_analyze_ok env = true ->
  UploadPhoto env (Some ds) st areaID = (UploadOk photo its, st') ->
  exists ops, upload_run env st areaID (map EvItem ds) =
    (Some (map (fun it => EvItem {| Name := item_Name it; Quantity := item_Quantity it;
                                    Notes := item_Notes it |}) its), st', ops).
Proof.
  intros env ds st areaID photo its st' Hs Ha H.
  unfold UploadPhoto in H. unfold upload_run, UploadPhotoStream.
  rewrite Hs, Ha. cbn [negb].
  destruct (env_area env); try discriminate.
  destruct (env_save_ok env); cbn in H |- *; [|discriminate].
  destruct (env_photo_create env); cbn in H |- *; try discriminate.
  destruct (env_delete_items_ok env); cbn in H |- *; [|discriminate].
  match type of H with context [create_items ?e ?a ?p 0 ds ?s] =>
    pose proof (UploadPathsFacts.worker_create_items e a
                  {| photo_ID := p; photo_AreaID := areaID; photo_StorageKey := next_key st |}
                  ds 0 s) as W;
    cbn [photo_ID] in W;
    destruct (create_items e a p 0 ds s) as [its0 st4] end.
  injection H as <- <- <-. destruct W as [ops Hw]. rewrite Hw.
  eexists. reflexivity.
Qed.

Lemma UploadPhoto_agrees_with_stream_witness :
  exists ops, upload_run (env_with CreateOk true true true) store_A 1 (map EvItem [milk]) =
    (Some (map (fun it => EvItem {| Name := item_Name it; Quantity := item_Quantity it;
                                    Notes := item_Notes it |})
              (match fst (UploadPhoto (env_with CreateOk true true true) (Some [milk])
                            store_A 1) with UploadOk _ its => its | _ => [] end)),
     snd (UploadPhoto (env_with CreateOk true true true) (Some [milk]) store_A 1), ops).
Proof.
  apply (UploadPhoto_agrees_with_stream (env_with CreateOk true true true) [milk] store_A 1
           {| photo_ID := 3; photo_AreaID := 1; photo_StorageKey := 1 |});
    [reflexivity | reflexivity | vm_compute; reflexivity].
Defined.
